(** * Job run results of Apache Beam jobs: [core/jobs/types/job_run_result.py]

    A shallow embedding of the class [JobRunResult] and of its class method
    [accumulate], which packs many small results into few records that all
    respect [MAX_OUTPUT_BYTES].

    Conventions of the embedding.
    - A Python [str] is the list of its code points.
    - A Python [int] is a [Z].
    - A call that may raise returns in the error monad [M]; [Raise e] is the
      exception leaving the function.
    - [heapq] belongs to the Python standard library, not to this repository.
      The heap is modelled by its contract: the heap is kept as the list of
      its items in ascending order, [heappush] inserts at the right place and
      [heappop] removes the least item.  The indices of [enumerate] make
      the items pairwise different in (size, index), so the order of the pops
      is the same for every implementation of the heap (lemma
      [pop_order_unique]). *)

From Stdlib Require Import String Ascii DecimalString DecimalZ.
From Stdlib Require Import List ZArith NArith Lia Bool.
From Stdlib Require Import Permutation Sorted.
Import ListNotations.

Local Open Scope Z_scope.

(** ** Exceptions and the error monad *)

Inductive exn : Type :=
| ValueError (msg : string)
| IndexError (msg : string).

Inductive M (A : Type) : Type :=
| Ok (a : A)
| Raise (e : exn).

Arguments Ok {A} a.
Arguments Raise {A} e.

Definition ret {A : Type} (a : A) : M A := Ok a.

Definition bind {A B : Type} (m : M A) (k : A -> M B) : M B :=
  match m with
  | Ok a => k a
  | Raise e => Raise e
  end.

Notation "x <- m ;; k" := (bind m (fun x => k))
  (at level 61, m at next level, right associativity).
Notation "' p <- m ;; k" := (bind m (fun x => match x with p => k end))
  (at level 61, p pattern, m at next level, right associativity).

Definition returns {A : Type} (m : M A) : Prop := exists a, m = Ok a.

Fixpoint mapM {A B : Type} (f : A -> M B) (l : list A) : M (list B) :=
  match l with
  | [] => ret []
  | a :: l' => b <- f a ;; bs <- mapM f l' ;; ret (b :: bs)
  end.

(** ** Text *)

Definition codepoint : Type := N.
Definition str : Type := list codepoint.

(** A [str] literal with ASCII characters only. *)
Definition py (s : string) : str := map N_of_ascii (list_ascii_of_string s).

(** ['\n'], the delimiter of [accumulate]. *)
Definition newline : codepoint := 10%N.
Definition nl : str := [newline].

(** Truth value of a [str]: [if s] holds when [s] is not empty. *)
Definition truthy (s : str) : bool :=
  match s with
  | [] => false
  | _ :: _ => true
  end.

(** [str.__eq__] *)
Definition str_eqb (s t : str) : bool :=
  if list_eq_dec N.eq_dec s t then true else false.

(** UTF-8 encoding of one code point. *)
Definition utf8_encode (c : codepoint) : list N :=
  (if c <? 0x80 then [c]
   else if c <? 0x800 then
     [N.lor 0xC0 (N.shiftr c 6); N.lor 0x80 (N.land c 0x3F)]
   else if c <? 0x10000 then
     [N.lor 0xE0 (N.shiftr c 12);
      N.lor 0x80 (N.land (N.shiftr c 6) 0x3F);
      N.lor 0x80 (N.land c 0x3F)]
   else
     [N.lor 0xF0 (N.shiftr c 18);
      N.lor 0x80 (N.land (N.shiftr c 12) 0x3F);
      N.lor 0x80 (N.land (N.shiftr c 6) 0x3F);
      N.lor 0x80 (N.land c 0x3F)])%N.

(** Modelled from the spec: [python_utils.convert_to_bytes]
    ([core/python_utils.py] is not among the sources).  The spec measures a
    channel by the byte length of its UTF-8 encoding; every code point is
    encoded by the UTF-8 bit layout of its range. *)
Definition convert_to_bytes (s : str) : list N := flat_map utf8_encode s.

(** [len(...)] of a sequence, as a Python [int]. *)
Definition len {A : Type} (l : list A) : Z := Z.of_nat (length l).

(** [sum(...)] of a sequence of ints. *)
Definition sum (l : list Z) : Z := fold_left Z.add l 0.

(** [sep.join(xs)] *)
Fixpoint join (sep : str) (xs : list str) : str :=
  match xs with
  | [] => []
  | x :: xs' =>
      match xs' with
      | [] => x
      | _ :: _ => x ++ sep ++ join sep xs'
      end
  end.

(** [s.split(c)] for a one-character separator [c]: never an empty list, the
    empty string splits into one empty piece. *)
Fixpoint split (c : codepoint) (s : str) : list str :=
  match s with
  | [] => [[]]
  | x :: s' =>
      if N.eqb x c then [] :: split c s'
      else match split c s' with
           | [] => [[x]]
           | piece :: pieces => (x :: piece) :: pieces
           end
  end.

(** [list(enumerate(l, start))] *)
Fixpoint enumerate_from {A : Type} (start : Z) (l : list A) : list (Z * A) :=
  match l with
  | [] => []
  | a :: l' => (start, a) :: enumerate_from (start + 1) l'
  end.

Definition enumerate {A : Type} (l : list A) : list (Z * A) :=
  enumerate_from 0 l.

(** ** Values handed to the factories

    [as_stdout] and [as_stderr] accept any object and only format it with
    ['%s'] or ['%r'], so an object is represented by the two strings that
    [str(value)] and [repr(value)] return. *)

Record pyobject : Type := PyObject {
  __str__ : str;
  __repr__ : str
}.

(** The [str] object [''] : [str('')] is [''] and [repr('')] is the two
    quote characters. *)
Definition empty_str_object : pyobject :=
  {| __str__ := []; __repr__ := py "''" |}.

(** The object [None]. *)
Definition none_object : pyobject :=
  {| __str__ := py "None"; __repr__ := py "None" |}.

(** [('%r' if use_repr else '%s') % (value,)] *)
Definition format_value (use_repr : bool) (value : pyobject) : str :=
  if use_repr then __repr__ value else __str__ value.

(** ** The class [JobRunResult] *)

Definition MAX_OUTPUT_BYTES : Z := 1500.

Record JobRunResult : Type := mkJobRunResult {
  stdout : str;
  stderr : str
}.

Definition len_in_bytes (self : JobRunResult) : Z :=
  let output_bytes := map convert_to_bytes [stdout self; stderr self] in
  sum (map len output_bytes).

Definition empty_message : string :=
  "JobRunResult instances must not be empty".
Definition too_large_message : string :=
  "JobRunResult must not exceed 1500 bytes".

Definition __init__ (stdout stderr : str) : M JobRunResult :=
  if negb (truthy stdout) && negb (truthy stderr) then
    Raise (ValueError empty_message)
  else
    let self := mkJobRunResult stdout stderr in
    if len_in_bytes self >? MAX_OUTPUT_BYTES then
      Raise (ValueError too_large_message)
    else ret self.

Definition as_stdout (value : pyobject) (use_repr : bool) : M JobRunResult :=
  let str_value := format_value use_repr value in
  __init__ str_value [].

Definition as_stderr (value : pyobject) (use_repr : bool) : M JobRunResult :=
  let str_value := format_value use_repr value in
  __init__ [] str_value.

(** [__eq__] for [other] of the same class; for an object of another class
    the source answers [NotImplemented]. *)
Definition __eq__ (self other : JobRunResult) : bool :=
  str_eqb (stdout self) (stdout other) && str_eqb (stderr self) (stderr other).

(** ** The heap of [accumulate] *)

(** An item of [results_heap]: [(result.len_in_bytes(), i, result)]. *)
Definition item : Type := Z * Z * JobRunResult.

Definition item_size (it : item) : Z := fst (fst it).
Definition item_index (it : item) : Z := snd (fst it).
Definition item_result (it : item) : JobRunResult := snd it.

(** Comparison of two items as tuples, on the size first and on the index
    next.  The indices of [enumerate] are pairwise different, so the third
    component is never reached (lemma [heap_items_NoDup_index]). *)
Definition item_ltb (a b : item) : bool :=
  (item_size a <? item_size b)
  || ((item_size a =? item_size b) && (item_index a <? item_index b)).

Definition item_lt (a b : item) : Prop :=
  item_size a < item_size b
  \/ (item_size a = item_size b /\ item_index a < item_index b).

Definition heap : Type := list item.

Fixpoint heappush (h : heap) (it : item) : heap :=
  match h with
  | [] => [it]
  | least :: h' =>
      if item_ltb it least then it :: h else least :: heappush h' it
  end.

Definition heappop (h : heap) : M (item * heap) :=
  match h with
  | [] => Raise (IndexError "index out of range")
  | least :: h' => ret (least, h')
  end.

(** ** [accumulate] *)

(** The items pushed by the first loop, in the order of the pushes. *)
Definition heap_items (results : list JobRunResult) : list item :=
  map (fun '(i, result) => (len_in_bytes result, i, result)) (enumerate results).

(** [for i, result in enumerate(results): heapq.heappush(results_heap, ...)] *)
Definition push_all (results : list JobRunResult) : heap :=
  fold_left heappush (heap_items results) [].

(** The delimiter bytes charged for [next_smallest]. *)
Definition padding (next_smallest : JobRunResult) : Z :=
  if truthy (stdout next_smallest) && truthy (stderr next_smallest)
  then 2 else 1.

(** [batches[-1].append(r)] *)
Fixpoint append_to_last (batches : list (list JobRunResult)) (r : JobRunResult)
  : M (list (list JobRunResult)) :=
  match batches with
  | [] => Raise (IndexError "list index out of range")
  | [batch] => ret [batch ++ [r]]
  | batch :: batches' =>
      rest <- append_to_last batches' r ;; ret (batch :: rest)
  end.

(** The state of the [while] loop. *)
Record loop_state : Type := mkState {
  batches : list (list JobRunResult);
  latest_batch_size : Z
}.

(** One turn of the [while] loop, for the item just popped. *)
Definition loop_body (st : loop_state) (popped : item) : M loop_state :=
  let '(result_size, _, next_smallest) := popped in
  let padding := padding next_smallest in
  if latest_batch_size st + padding + result_size <? MAX_OUTPUT_BYTES then
    batches' <- append_to_last (batches st) next_smallest ;;
    ret (mkState batches' (latest_batch_size st + (padding + result_size)))
  else
    ret (mkState (batches st ++ [[next_smallest]]) result_size).

(** [while results_heap: ... heapq.heappop(results_heap) ...]; on this
    representation of the heap [heappop] takes the head (lemma
    [heappop_cons]). *)
Fixpoint while_heap (results_heap : heap) (st : loop_state) : M loop_state :=
  match results_heap with
  | [] => ret st
  | popped :: results_heap' =>
      st' <- loop_body st popped ;; while_heap results_heap' st'
  end.

(** The body of the last loop: one record per batch. *)
Definition merge_batch (batch : list JobRunResult) : M JobRunResult :=
  let stdout' := join nl (map stdout (filter (fun r => truthy (stdout r)) batch)) in
  let stderr' := join nl (map stderr (filter (fun r => truthy (stderr r)) batch)) in
  __init__ stdout' stderr'.

(** The batches, once the heap is built. *)
Definition batch_heap (results_heap : heap) : M (list (list JobRunResult)) :=
  '(first, results_heap') <- heappop results_heap ;;
  let '(latest_batch_size, _, smallest) := first in
  st <- while_heap results_heap' (mkState [[smallest]] latest_batch_size) ;;
  ret (batches st).

Definition accumulate_from (results_heap : heap) : M (list JobRunResult) :=
  batches <- batch_heap results_heap ;;
  mapM merge_batch batches.

Definition accumulate (results : list JobRunResult) : M (list JobRunResult) :=
  match results with
  | [] => ret []
  | _ :: _ => accumulate_from (push_all results)
  end.

(** ** Records as the callers hand them over

    A record that [__init__] accepted: not empty, and within the ceiling. *)
Definition valid (r : JobRunResult) : Prop :=
  (truthy (stdout r) = true \/ truthy (stderr r) = true)
  /\ len_in_bytes r <= MAX_OUTPUT_BYTES.

Definition R_out (s : string) : JobRunResult := mkJobRunResult (py s) [].
Definition R_err (s : string) : JobRunResult := mkJobRunResult [] (py s).

(** ** Notions used to state the properties *)

(** Byte length of one channel. *)
Definition byte_len (s : str) : Z := len (convert_to_bytes s).

(** The record that [merge_batch] hands to the constructor. *)
Definition merged (batch : list JobRunResult) : JobRunResult :=
  mkJobRunResult
    (join nl (map stdout (filter (fun r => truthy (stdout r)) batch)))
    (join nl (map stderr (filter (fun r => truthy (stderr r)) batch))).

(** A channel of the merged record, for either channel [chan]. *)
Definition joined (chan : JobRunResult -> str) (batch : list JobRunResult)
  : str :=
  join nl (map chan (filter (fun r => truthy (chan r)) batch)).

(** No item of the heap compares smaller than [a] does. *)
Definition item_le (a b : item) : Prop := item_ltb b a = false.

(** The delimiter bytes that appending [next] to [batch] really adds to the
    joined channels: one for each channel that is non-empty in [next] and
    already has content in [batch]. *)
Definition delimiters_needed (batch : list JobRunResult) (next : JobRunResult)
  : Z :=
  (if truthy (stdout next) && existsb (fun r => truthy (stdout r)) batch
   then 1 else 0)
  + (if truthy (stderr next) && existsb (fun r => truthy (stderr r)) batch
     then 1 else 0).

(** The loop body as the specification words it in its note on step 5a: the
    padding is tracked per channel against the content of the running batch.
    It is compared with [loop_body], the loop body of the source. *)
Definition loop_body_precise (st : loop_state) (popped : item) : M loop_state :=
  let '(result_size, _, next_smallest) := popped in
  let padding := delimiters_needed (last (batches st) []) next_smallest in
  if latest_batch_size st + padding + result_size <? MAX_OUTPUT_BYTES then
    batches' <- append_to_last (batches st) next_smallest ;;
    ret (mkState batches' (latest_batch_size st + (padding + result_size)))
  else
    ret (mkState (batches st ++ [[next_smallest]]) result_size).

(** The pieces of a channel of the output records, split on the delimiter. *)
Definition pieces (chan : JobRunResult -> str) (out : list JobRunResult)
  : list str :=
  flat_map (fun r => split newline (chan r)) out.

(** The values of a channel among the records where it is not empty. *)
Definition channel_values (chan : JobRunResult -> str)
  (results : list JobRunResult) : list str :=
  map chan (filter (fun r => truthy (chan r)) results).

(** What a priority queue may hand out for [results]: every pushed item once,
    and no item before one that compares smaller. *)
Definition pop_order (results : list JobRunResult) (order : list item) : Prop :=
  Permutation order (heap_items results)
  /\ StronglySorted item_le order.

(** An item as the first loop pushes it: the size is the size of its record,
    and the record is one the constructor accepted. *)
Definition item_ok (it : item) : Prop :=
  item_size it = len_in_bytes (item_result it) /\ valid (item_result it).

(** A batch whose merged record the constructor accepts. *)
Definition batch_ok (batch : list JobRunResult) : Prop :=
  (exists r, In r batch
             /\ (truthy (stdout r) = true \/ truthy (stderr r) = true))
  /\ len_in_bytes (merged batch) <= MAX_OUTPUT_BYTES.

(** The invariant of the [while] loop: the batches that are closed are
    accepted by the constructor, and [latest_batch_size] bounds the size of
    the merged record of the running batch from above. *)
Definition loop_inv (st : loop_state) : Prop :=
  exists closed running,
    batches st = closed ++ [running]
    /\ Forall batch_ok closed
    /\ batch_ok running
    /\ len_in_bytes (merged running) <= latest_batch_size st
    /\ latest_batch_size st <= MAX_OUTPUT_BYTES.

(** [accumulate] run over any implementation of the heap, given the order in
    which that implementation hands out the items. *)
Definition accumulate_popping (results : list JobRunResult)
  (order : list item) : M (list JobRunResult) :=
  match results with
  | [] => ret []
  | _ :: _ => accumulate_from order
  end.

(** A record of [n] bytes on stdout. *)
Definition R_bytes (n : nat) : JobRunResult :=
  mkJobRunResult (repeat 120%N n) [].

(** A record of [n] bytes on stderr. *)
Definition R_err_bytes (n : nat) : JobRunResult :=
  mkJobRunResult [] (repeat 120%N n).

(** A record whose stdout holds two lines. *)
Definition two_lines : JobRunResult :=
  mkJobRunResult (py "a" ++ nl ++ py "b") [].

(** The loop state of [accumulate [R_out "a"; R_err "b"]] after the first
    pop, and the item of the second pop. *)
Definition seeded_state : loop_state := mkState [[R_out "a"]] 1.
Definition second_item : item := (1, 1, R_err "b").

(** A batch that merges strictly below the ceiling, or holds one record. *)
Definition below_or_single (batch : list JobRunResult) : Prop :=
  len_in_bytes (merged batch) < MAX_OUTPUT_BYTES \/ exists r, batch = [r].

(** A second invariant of the [while] loop: a batch reaches the ceiling only
    as long as it holds a single record. *)
Definition loop_inv_strict (st : loop_state) : Prop :=
  exists closed running,
    batches st = closed ++ [running]
    /\ Forall below_or_single closed
    /\ len_in_bytes (merged running) <= latest_batch_size st
    /\ (latest_batch_size st < MAX_OUTPUT_BYTES \/ exists r, running = [r]).

(** What the [while] loop reads of a popped item: the size and the record;
    the index is bound to [_]. *)
Definition item_payload (it : item) : Z * JobRunResult :=
  (item_size it, item_result it).

(** ** Restoring a pickled [JobRunResult] *)

(** [self.stdout, self.stderr = state]: both slots are overwritten, nothing
    is validated.  The function returns [self] after the assignment. *)
Definition __setstate__ (self : JobRunResult) (state : str * str)
  : JobRunResult :=
  let '(stdout', stderr') := state in
  mkJobRunResult stdout' stderr'.

(** ** The rule of the [while] loop, read off its result *)

(** The size the loop tracks for a batch: the size of its first record and,
    for every record appended after it, the padding charged and its size. *)
Definition tracked_size (batch : list JobRunResult) : Z :=
  match batch with
  | [] => 0
  | first :: rest =>
      fold_left (fun size r => size + (padding r + len_in_bytes r)) rest
        (len_in_bytes first)
  end.

(** Every record after the first of the batch was admitted: the tracked
    size of the records before it, its padding and its size together stayed
    strictly below the ceiling. *)
Definition admitted (batch : list JobRunResult) : Prop :=
  forall before r after,
    batch = before ++ r :: after ->
    before <> [] ->
    tracked_size before + padding r + len_in_bytes r < MAX_OUTPUT_BYTES.

(** Every record that opens a batch after the first one was refused by the
    batch before it: the tracked size of that batch, the padding of the
    record and its size together reached the ceiling. *)
Definition refused (bs : list (list JobRunResult)) : Prop :=
  forall bs1 batch r after bs2,
    bs = bs1 ++ batch :: (r :: after) :: bs2 ->
    MAX_OUTPUT_BYTES <= tracked_size batch + padding r + len_in_bytes r.

(** A third invariant of the [while] loop: [latest_batch_size] is the
    tracked size of the running batch, and the batches follow the rule. *)
Definition loop_inv_threshold (st : loop_state) : Prop :=
  exists closed running,
    batches st = closed ++ [running]
    /\ running <> []
    /\ latest_batch_size st = tracked_size running
    /\ Forall (fun b => b <> []) closed
    /\ Forall admitted (closed ++ [running])
    /\ refused (closed ++ [running]).

(** The bytes of all records of a list. *)
Definition total_bytes (l : list JobRunResult) : Z :=
  sum (map len_in_bytes l).

(** * Improvement tasks: [core/storage/improvements/gae_models.py] *)

(** ['.'], the separator of the identifiers. *)
Definition dot : codepoint := 46%N.

(** ['%d' % n] for an [int]: the decimal digits, after a minus sign when
    [n] is negative. *)
Definition format_d (n : Z) : str :=
  py (NilEmpty.string_of_int (Z.to_int n)).

(** ['%s.%s.%d.%s.%s.%s' % (...)] *)
Definition generate_task_id (entity_type entity_id : str)
  (entity_version : Z) (task_type target_type target_id : str) : str :=
  entity_type ++ [dot] ++ entity_id ++ [dot] ++ format_d entity_version
  ++ [dot] ++ task_type ++ [dot] ++ target_type ++ [dot] ++ target_id.

(** ['%s.%s.%d' % (entity_type, entity_id, entity_version)] *)
Definition generate_composite_entity_id (entity_type entity_id : str)
  (entity_version : Z) : str :=
  entity_type ++ [dot] ++ entity_id ++ [dot] ++ format_d entity_version.

(** * Properties *)

(** ** The error monad *)

Lemma mapM_Ok {A B : Type} (f : A -> M B) (g : A -> B) (l : list A) :
  Forall (fun a => f a = Ok (g a)) l -> mapM f l = Ok (map g l).
Proof.
  induction 1 as [| a l Ha _ IH]; simpl.
  - reflexivity.
  - rewrite Ha. simpl. rewrite IH. reflexivity.
Qed.

(** ** Text *)

Lemma truthy_true (s : str) : truthy s = true <-> s <> [].
Proof. destruct s; simpl; split; congruence. Qed.

Lemma truthy_false (s : str) : truthy s = false <-> s = [].
Proof. destruct s; simpl; split; congruence. Qed.

Lemma truthy_app_l (s t : str) : truthy s = true -> truthy (s ++ t) = true.
Proof. destruct s; simpl; congruence. Qed.

Lemma truthy_app_r (s t : str) : truthy t = true -> truthy (s ++ t) = true.
Proof. destruct s; simpl; congruence. Qed.

Lemma str_eqb_eq (s t : str) : str_eqb s t = true <-> s = t.
Proof.
  unfold str_eqb. destruct (list_eq_dec N.eq_dec s t); split; congruence.
Qed.

Lemma utf8_encode_length (c : codepoint) :
  (1 <= length (utf8_encode c) <= 4)%nat.
Proof.
  unfold utf8_encode.
  destruct (c <? 0x80)%N; [simpl; lia |].
  destruct (c <? 0x800)%N; [simpl; lia |].
  destruct (c <? 0x10000)%N; simpl; lia.
Qed.

Lemma len_app {A : Type} (l l' : list A) : len (l ++ l') = len l + len l'.
Proof. unfold len. rewrite length_app. lia. Qed.

Lemma len_nonneg {A : Type} (l : list A) : 0 <= len l.
Proof. unfold len. lia. Qed.

Lemma byte_len_nil : byte_len [] = 0.
Proof. reflexivity. Qed.

Lemma byte_len_nl : byte_len nl = 1.
Proof. reflexivity. Qed.

Lemma byte_len_app (s t : str) : byte_len (s ++ t) = byte_len s + byte_len t.
Proof.
  unfold byte_len, convert_to_bytes. rewrite flat_map_app. apply len_app.
Qed.

Lemma byte_len_nonneg (s : str) : 0 <= byte_len s.
Proof. apply len_nonneg. Qed.

Lemma byte_len_truthy (s : str) : truthy s = true -> 1 <= byte_len s.
Proof.
  destruct s as [| c s]; simpl; [discriminate |]. intros _.
  change (c :: s) with ([c] ++ s). rewrite byte_len_app.
  pose proof (byte_len_nonneg s).
  unfold byte_len at 1, convert_to_bytes, len. simpl. rewrite app_nil_r.
  pose proof (utf8_encode_length c). lia.
Qed.

Lemma byte_len_ascii (n : nat) : byte_len (repeat 120%N n) = Z.of_nat n.
Proof.
  induction n as [| n IH].
  - reflexivity.
  - change (repeat 120%N (S n)) with ([120%N] ++ repeat 120%N n).
    rewrite byte_len_app, IH. change (byte_len [120%N]) with 1. lia.
Qed.

Lemma len_in_bytes_eq (r : JobRunResult) :
  len_in_bytes r = byte_len (stdout r) + byte_len (stderr r).
Proof. unfold len_in_bytes, sum, byte_len. simpl. lia. Qed.

Lemma join_snoc (sep : str) (xs : list str) (x : str) :
  join sep (xs ++ [x]) =
  match xs with
  | [] => x
  | _ :: _ => join sep xs ++ sep ++ x
  end.
Proof.
  induction xs as [| y ys IH]; [reflexivity |].
  destruct ys as [| z zs].
  - reflexivity.
  - change (join sep ((y :: z :: zs) ++ [x]))
      with (y ++ sep ++ join sep ((z :: zs) ++ [x])).
    rewrite IH.
    change (join sep (y :: z :: zs)) with (y ++ sep ++ join sep (z :: zs)).
    rewrite <- !app_assoc. reflexivity.
Qed.

Lemma join_truthy (sep : str) (xs : list str) :
  Exists (fun x => truthy x = true) xs -> truthy (join sep xs) = true.
Proof.
  induction xs as [| y ys IH]; intros H; [inversion H |].
  destruct ys as [| z zs].
  - inversion H as [? ? Hy | ? ? Hys]; subst; [exact Hy | inversion Hys].
  - change (join sep (y :: z :: zs)) with (y ++ sep ++ join sep (z :: zs)).
    inversion H as [? ? Hy | ? ? Hys]; subst.
    + apply truthy_app_l, Hy.
    + apply truthy_app_r, truthy_app_r, IH, Hys.
Qed.

Lemma split_no_sep (c : codepoint) (s : str) :
  ~ In c s -> split c s = [s].
Proof.
  induction s as [| x s IH]; intros H; [reflexivity |].
  simpl. destruct (N.eqb_spec x c) as [-> | _].
  - exfalso. apply H. left. reflexivity.
  - rewrite IH; [reflexivity |]. intros Hin. apply H. right. exact Hin.
Qed.

Lemma split_app_sep (c : codepoint) (s t : str) :
  ~ In c s -> split c (s ++ c :: t) = s :: split c t.
Proof.
  induction s as [| x s IH]; intros H; simpl.
  - rewrite N.eqb_refl. reflexivity.
  - destruct (N.eqb_spec x c) as [-> | _].
    + exfalso. apply H. left. reflexivity.
    + rewrite IH; [reflexivity |]. intros Hin. apply H. right. exact Hin.
Qed.

Lemma split_join (c : codepoint) (xs : list str) :
  xs <> [] -> Forall (fun x => ~ In c x) xs -> split c (join [c] xs) = xs.
Proof.
  induction xs as [| y ys IH]; intros Hne H; [congruence |].
  inversion H as [| ? ? Hy Hys]; subst.
  destruct ys as [| z zs].
  - simpl. apply split_no_sep, Hy.
  - change (join [c] (y :: z :: zs)) with (y ++ c :: join [c] (z :: zs)).
    rewrite split_app_sep by exact Hy.
    rewrite IH; [reflexivity | discriminate | exact Hys].
Qed.

Lemma filter_truthy_split_join (xs : list str) :
  Forall (fun x => truthy x = true) xs ->
  Forall (fun x => ~ In newline x) xs ->
  filter truthy (split newline (join nl xs)) = xs.
Proof.
  intros Ht Hn. destruct xs as [| y ys]; [reflexivity |].
  unfold nl. rewrite split_join; [| discriminate | exact Hn].
  apply forallb_filter_id. apply forallb_forall.
  apply Forall_forall. exact Ht.
Qed.

(** ** The size of a batch once joined *)

Lemma existsb_filter {A : Type} (f : A -> bool) (l : list A) :
  existsb f l = match filter f l with [] => false | _ :: _ => true end.
Proof.
  induction l as [| a l IH]; simpl; [reflexivity |].
  destruct (f a); simpl; [reflexivity | exact IH].
Qed.

Lemma merged_joined (batch : list JobRunResult) :
  merged batch = mkJobRunResult (joined stdout batch) (joined stderr batch).
Proof. reflexivity. Qed.

Section Channel.

Variable chan : JobRunResult -> str.

Let has (r : JobRunResult) : bool := truthy (chan r).

Lemma joined_snoc (batch : list JobRunResult) (r : JobRunResult) :
  byte_len (joined chan (batch ++ [r])) =
  byte_len (joined chan batch)
  + (if truthy (chan r) && existsb has batch then 1 else 0)
  + byte_len (chan r).
Proof.
  unfold joined. rewrite filter_app. simpl filter.
  rewrite (existsb_filter has batch). fold has.
  destruct (has r) eqn:Hr; unfold has in Hr; rewrite Hr.
  - rewrite map_app. simpl map. rewrite join_snoc.
    destruct (filter has batch) as [| r0 l0]; simpl andb; simpl map.
    + simpl join. rewrite byte_len_nil. lia.
    + cbv beta iota. rewrite !byte_len_app, byte_len_nl. lia.
  - apply truthy_false in Hr. rewrite Hr, app_nil_r, byte_len_nil.
    simpl andb. cbv iota. lia.
Qed.

Lemma joined_single (r : JobRunResult) : joined chan [r] = chan r.
Proof.
  unfold joined. simpl. destruct (truthy (chan r)) eqn:Hr; simpl.
  - reflexivity.
  - apply truthy_false in Hr. congruence.
Qed.

Lemma joined_truthy (batch : list JobRunResult) (r : JobRunResult) :
  In r batch -> truthy (chan r) = true -> truthy (joined chan batch) = true.
Proof.
  intros Hin Hr. unfold joined. apply join_truthy.
  apply Exists_exists. exists (chan r). split; [| exact Hr].
  apply in_map. apply filter_In. split; assumption.
Qed.

Lemma pieces_joined (batch : list JobRunResult) :
  Forall (fun r => ~ In newline (chan r)) batch ->
  filter truthy (split newline (joined chan batch)) = channel_values chan batch.
Proof.
  intros Hn. unfold joined, channel_values.
  apply filter_truthy_split_join.
  - apply Forall_forall. intros s Hs.
    apply in_map_iff in Hs. destruct Hs as [r [<- Hr]].
    apply filter_In in Hr. apply Hr.
  - apply Forall_forall. intros s Hs.
    apply in_map_iff in Hs. destruct Hs as [r [<- Hr]].
    apply filter_In in Hr. destruct Hr as [Hr _].
    rewrite Forall_forall in Hn. apply Hn, Hr.
Qed.

Lemma channel_values_app (l l' : list JobRunResult) :
  channel_values chan (l ++ l') = channel_values chan l ++ channel_values chan l'.
Proof. unfold channel_values. rewrite filter_app, map_app. reflexivity. Qed.

Lemma channel_values_concat (bs : list (list JobRunResult)) :
  channel_values chan (concat bs) = flat_map (channel_values chan) bs.
Proof.
  induction bs as [| b bs IH]; simpl; [reflexivity |].
  rewrite channel_values_app, IH. reflexivity.
Qed.

Lemma channel_values_perm (l l' : list JobRunResult) :
  Permutation l l' ->
  Permutation (channel_values chan l) (channel_values chan l').
Proof.
  intros H. unfold channel_values. apply Permutation_map.
  induction H as [| x l l' _ IH | x y l | l l' l'' _ IH1 _ IH2]; simpl.
  - constructor.
  - destruct (truthy (chan x)); [constructor |]; exact IH.
  - destruct (truthy (chan x)), (truthy (chan y));
      try apply Permutation_refl. constructor.
  - eapply Permutation_trans; eassumption.
Qed.

End Channel.

Lemma merged_single (r : JobRunResult) : merged [r] = r.
Proof.
  rewrite merged_joined, !joined_single. destruct r; reflexivity.
Qed.

Lemma merged_snoc (batch : list JobRunResult) (r : JobRunResult) :
  len_in_bytes (merged (batch ++ [r])) =
  len_in_bytes (merged batch) + delimiters_needed batch r + len_in_bytes r.
Proof.
  rewrite !len_in_bytes_eq, !merged_joined. simpl stdout. simpl stderr.
  rewrite !joined_snoc. unfold delimiters_needed. lia.
Qed.

Lemma delimiters_needed_le_padding (batch : list JobRunResult)
  (r : JobRunResult) :
  0 <= delimiters_needed batch r <= padding r.
Proof.
  unfold delimiters_needed, padding.
  destruct (truthy (stdout r)), (truthy (stderr r)); simpl;
    repeat match goal with
           | |- context [existsb ?f batch] => destruct (existsb f batch)
           end; lia.
Qed.

Lemma merged_truthy (batch : list JobRunResult) (r : JobRunResult) :
  In r batch ->
  truthy (stdout r) = true \/ truthy (stderr r) = true ->
  truthy (stdout (merged batch)) = true \/ truthy (stderr (merged batch)) = true.
Proof.
  intros Hin [H | H]; [left | right]; rewrite merged_joined; simpl;
    eapply joined_truthy; eassumption.
Qed.

(** ** The constructor *)

Lemma init_Ok (o e : str) :
  truthy o = true \/ truthy e = true ->
  len_in_bytes (mkJobRunResult o e) <= MAX_OUTPUT_BYTES ->
  __init__ o e = Ok (mkJobRunResult o e).
Proof.
  intros Hne Hlen. unfold __init__.
  destruct (negb (truthy o) && negb (truthy e)) eqn:Hb.
  - apply andb_true_iff in Hb. destruct Hb as [Ho He].
    apply negb_true_iff in Ho, He. destruct Hne; congruence.
  - destruct (Z.gtb_spec (len_in_bytes (mkJobRunResult o e)) MAX_OUTPUT_BYTES);
      [lia | reflexivity].
Qed.

Lemma init_Ok_inv (o e : str) (r : JobRunResult) :
  __init__ o e = Ok r ->
  r = mkJobRunResult o e
  /\ (truthy o = true \/ truthy e = true)
  /\ len_in_bytes r <= MAX_OUTPUT_BYTES.
Proof.
  unfold __init__.
  destruct (negb (truthy o) && negb (truthy e)) eqn:Hb; [discriminate |].
  destruct (Z.gtb_spec (len_in_bytes (mkJobRunResult o e)) MAX_OUTPUT_BYTES)
    as [| Hle]; [discriminate |].
  intros H. injection H as <-. split; [reflexivity |]. split; [| exact Hle].
  apply andb_false_iff in Hb. destruct Hb as [Hb | Hb];
    apply negb_false_iff in Hb; auto.
Qed.

Lemma init_valid (r : JobRunResult) :
  valid r -> __init__ (stdout r) (stderr r) = Ok r.
Proof.
  intros [Hne Hlen]. destruct r as [o e]. apply init_Ok; assumption.
Qed.

(** ** The heap *)

Lemma heappop_cons (least : item) (h : heap) :
  heappop (least :: h) = Ok (least, h).
Proof. reflexivity. Qed.

Lemma item_ltb_lt (a b : item) : item_ltb a b = true <-> item_lt a b.
Proof.
  unfold item_ltb, item_lt.
  rewrite orb_true_iff, andb_true_iff, Z.ltb_lt, Z.eqb_eq, Z.ltb_lt.
  reflexivity.
Qed.

Lemma item_le_iff (a b : item) :
  item_le a b <->
  item_size a < item_size b
  \/ (item_size a = item_size b /\ item_index a <= item_index b).
Proof.
  unfold item_le. rewrite <- not_true_iff_false, item_ltb_lt.
  unfold item_lt. lia.
Qed.

Lemma item_le_trans (a b c : item) : item_le a b -> item_le b c -> item_le a c.
Proof. rewrite !item_le_iff. lia. Qed.

Lemma item_lt_le (a b : item) : item_lt a b -> item_le a b.
Proof. rewrite item_le_iff. unfold item_lt. lia. Qed.

Lemma item_le_total (a b : item) : item_ltb a b = false -> item_le b a.
Proof. intros H. exact H. Qed.

Lemma item_lt_asym (a b : item) : item_lt a b -> item_lt b a -> False.
Proof. unfold item_lt. lia. Qed.

Lemma heappush_perm (h : heap) (it : item) :
  Permutation (heappush h it) (it :: h).
Proof.
  induction h as [| least h IH]; simpl.
  - apply Permutation_refl.
  - destruct (item_ltb it least).
    + apply Permutation_refl.
    + eapply Permutation_trans; [apply perm_skip, IH | apply perm_swap].
Qed.

Lemma heappush_sorted (h : heap) (it : item) :
  StronglySorted item_le h -> StronglySorted item_le (heappush h it).
Proof.
  induction 1 as [| least h Hs IH Hall]; simpl.
  - constructor; constructor.
  - destruct (item_ltb it least) eqn:Hlt.
    + apply item_ltb_lt, item_lt_le in Hlt.
      constructor; [constructor; assumption |].
      constructor; [exact Hlt |].
      eapply Forall_impl; [| exact Hall].
      intros c Hc. eapply item_le_trans; eassumption.
    + constructor; [exact IH |].
      eapply Permutation_Forall; [apply Permutation_sym, heappush_perm |].
      constructor; [apply item_le_total, Hlt | exact Hall].
Qed.

Lemma fold_heappush_perm (l : list item) (h : heap) :
  Permutation (fold_left heappush l h) (h ++ l).
Proof.
  revert h. induction l as [| it l IH]; intros h; simpl.
  - rewrite app_nil_r. apply Permutation_refl.
  - eapply Permutation_trans; [apply IH |].
    eapply Permutation_trans;
      [apply Permutation_app_tail, heappush_perm |].
    simpl. apply Permutation_middle.
Qed.

Lemma fold_heappush_sorted (l : list item) (h : heap) :
  StronglySorted item_le h -> StronglySorted item_le (fold_left heappush l h).
Proof.
  revert h. induction l as [| it l IH]; intros h Hh; simpl.
  - exact Hh.
  - apply IH, heappush_sorted, Hh.
Qed.

Lemma push_all_pop_order (results : list JobRunResult) :
  pop_order results (push_all results).
Proof.
  split.
  - apply (fold_heappush_perm (heap_items results) []).
  - apply fold_heappush_sorted. constructor.
Qed.

(** The items of [enumerate]: the records in the order of the input, each
    with its size, under pairwise different indices. *)

Lemma enumerate_from_snd {A : Type} (start : Z) (l : list A) :
  map snd (enumerate_from start l) = l.
Proof.
  revert start. induction l as [| a l IH]; intros start; simpl.
  - reflexivity.
  - rewrite IH. reflexivity.
Qed.

Lemma enumerate_from_fst {A : Type} (start : Z) (l : list A) :
  Forall (fun i => start <= i) (map fst (enumerate_from start l))
  /\ NoDup (map fst (enumerate_from start l)).
Proof.
  revert start. induction l as [| a l IH]; intros start; simpl.
  - split; constructor.
  - destruct (IH (start + 1)) as [Hge Hnd]. split.
    + constructor; [lia |].
      eapply Forall_impl; [| exact Hge]. simpl. intros; lia.
    + constructor; [| exact Hnd].
      intros Hin. rewrite Forall_forall in Hge.
      specialize (Hge _ Hin). lia.
Qed.

Lemma heap_items_results (results : list JobRunResult) :
  map item_result (heap_items results) = results.
Proof.
  unfold heap_items. rewrite map_map.
  rewrite <- (enumerate_from_snd 0 results) at 2.
  apply map_ext. intros [i r]. reflexivity.
Qed.

Lemma heap_items_NoDup_index (results : list JobRunResult) :
  NoDup (map item_index (heap_items results)).
Proof.
  unfold heap_items. rewrite map_map.
  rewrite (map_ext _ fst); [apply enumerate_from_fst |].
  intros [i r]. reflexivity.
Qed.

Lemma heap_items_ok (results : list JobRunResult) :
  Forall valid results -> Forall item_ok (heap_items results).
Proof.
  intros H. apply Forall_forall. intros it Hit.
  unfold heap_items in Hit. apply in_map_iff in Hit.
  destruct Hit as [[i r] [<- Hin]].
  split; [reflexivity |]. simpl.
  rewrite Forall_forall in H. apply H.
  rewrite <- (enumerate_from_snd 0 results).
  apply (in_map snd) in Hin. exact Hin.
Qed.

Lemma sorted_strict (l : list item) :
  StronglySorted item_le l -> NoDup (map item_index l) ->
  StronglySorted item_lt l.
Proof.
  induction 1 as [| a l Hs IH Hall]; intros Hnd; [constructor |].
  simpl in Hnd. inversion Hnd as [| ? ? Hnotin Hnd']; subst.
  constructor; [apply IH, Hnd' |].
  apply Forall_forall. intros b Hb.
  rewrite Forall_forall in Hall. specialize (Hall b Hb).
  apply item_le_iff in Hall. unfold item_lt.
  assert (item_index a <> item_index b).
  { intros Heq. apply Hnotin. rewrite Heq. apply in_map, Hb. }
  lia.
Qed.

Lemma sorted_unique (l1 l2 : list item) :
  Permutation l1 l2 ->
  StronglySorted item_lt l1 -> StronglySorted item_lt l2 -> l1 = l2.
Proof.
  revert l2. induction l1 as [| a l1 IH]; intros l2 Hp H1 H2.
  - apply Permutation_nil in Hp. congruence.
  - destruct l2 as [| b l2].
    + apply Permutation_sym, Permutation_nil in Hp. discriminate.
    + inversion H1 as [| ? ? H1' Ha]; subst.
      inversion H2 as [| ? ? H2' Hb]; subst.
      assert (a = b) as ->.
      { assert (In a (b :: l2)) as Hin1
          by (eapply Permutation_in; [exact Hp | left; reflexivity]).
        assert (In b (a :: l1)) as Hin2
          by (eapply Permutation_in;
              [apply Permutation_sym, Hp | left; reflexivity]).
        destruct Hin1 as [-> | Hin1]; [reflexivity |].
        destruct Hin2 as [-> | Hin2]; [reflexivity |].
        rewrite Forall_forall in Ha, Hb.
        exfalso. eapply item_lt_asym; [apply Ha, Hin2 | apply Hb, Hin1]. }
      f_equal. apply IH; [| assumption | assumption].
      eapply Permutation_cons_inv, Hp.
Qed.

Lemma pop_order_strict (results : list JobRunResult) (order : list item) :
  pop_order results order -> StronglySorted item_lt order.
Proof.
  intros [Hp Hs]. apply sorted_strict; [exact Hs |].
  eapply Permutation_NoDup;
    [apply Permutation_map, Permutation_sym, Hp |].
  apply heap_items_NoDup_index.
Qed.

Lemma pop_order_unique (results : list JobRunResult) (order : list item) :
  pop_order results order -> order = push_all results.
Proof.
  intros H. pose proof (push_all_pop_order results) as H'.
  apply sorted_unique.
  - eapply Permutation_trans; [apply H | apply Permutation_sym, H'].
  - eapply pop_order_strict, H.
  - eapply pop_order_strict, H'.
Qed.

(** ** The [while] loop *)

Lemma append_to_last_snoc (closed : list (list JobRunResult))
  (running : list JobRunResult) (r : JobRunResult) :
  append_to_last (closed ++ [running]) r = Ok (closed ++ [running ++ [r]]).
Proof.
  induction closed as [| b closed IH]; [reflexivity |].
  simpl app. simpl append_to_last.
  destruct (closed ++ [running]) as [| b' l] eqn:E.
  - apply app_eq_nil in E. destruct E as [_ E]. discriminate E.
  - rewrite IH. reflexivity.
Qed.

Lemma loop_body_append (st : loop_state) (size i : Z) (r : JobRunResult) :
  latest_batch_size st + padding r + size < MAX_OUTPUT_BYTES ->
  loop_body st (size, i, r) =
  (batches' <- append_to_last (batches st) r ;;
   ret (mkState batches' (latest_batch_size st + (padding r + size)))).
Proof.
  intros H. unfold loop_body.
  destruct (Z.ltb_spec (latest_batch_size st + padding r + size)
              MAX_OUTPUT_BYTES); [reflexivity | lia].
Qed.

Lemma loop_body_new_batch (st : loop_state) (size i : Z) (r : JobRunResult) :
  MAX_OUTPUT_BYTES <= latest_batch_size st + padding r + size ->
  loop_body st (size, i, r) = Ok (mkState (batches st ++ [[r]]) size).
Proof.
  intros H. unfold loop_body.
  destruct (Z.ltb_spec (latest_batch_size st + padding r + size)
              MAX_OUTPUT_BYTES); [lia | reflexivity].
Qed.

Lemma batch_ok_single (r : JobRunResult) : valid r -> batch_ok [r].
Proof.
  intros [Hne Hlen]. split.
  - exists r. split; [left; reflexivity | exact Hne].
  - rewrite merged_single. exact Hlen.
Qed.

Lemma loop_inv_init (it : item) :
  item_ok it -> loop_inv (mkState [[item_result it]] (item_size it)).
Proof.
  intros [Hsize Hvalid]. exists [], [item_result it]. simpl.
  split; [reflexivity |]. split; [constructor |].
  split; [apply batch_ok_single, Hvalid |].
  rewrite merged_single, Hsize. destruct Hvalid as [_ Hlen]. lia.
Qed.

Lemma loop_body_inv (st : loop_state) (it : item) :
  loop_inv st -> item_ok it ->
  exists st',
    loop_body st it = Ok st'
    /\ loop_inv st'
    /\ concat (batches st') = concat (batches st) ++ [item_result it].
Proof.
  intros (closed & running & Hb & Hclosed & Hrun & Hsize & Hmax) [Hit Hvalid].
  destruct it as [[size i] r]. unfold item_size, item_result in *.
  simpl fst in *. simpl snd in *.
  destruct (Z.lt_ge_cases (latest_batch_size st + padding r + size)
              MAX_OUTPUT_BYTES) as [Hlt | Hge].
  - rewrite loop_body_append by exact Hlt.
    rewrite Hb, append_to_last_snoc. simpl.
    eexists. split; [reflexivity |]. split.
    + exists closed, (running ++ [r]). simpl.
      split; [reflexivity |]. split; [exact Hclosed |].
      pose proof (merged_snoc running r) as Hsnoc.
      pose proof (delimiters_needed_le_padding running r) as Hpad.
      split; [| lia]. split; [| lia].
      destruct Hrun as [[r0 [Hin Hne]] _].
      exists r0. split; [apply in_or_app; left; exact Hin | exact Hne].
    + simpl. rewrite !concat_app. simpl. rewrite !app_nil_r.
      rewrite app_assoc. reflexivity.
  - rewrite loop_body_new_batch by exact Hge.
    eexists. split; [reflexivity |]. split.
    + exists (closed ++ [running]), [r]. simpl.
      split; [rewrite Hb; reflexivity |].
      split; [apply Forall_app; split; [exact Hclosed | constructor; [exact Hrun | constructor]] |].
      split; [apply batch_ok_single, Hvalid |].
      rewrite merged_single. destruct Hvalid as [_ Hlen]. lia.
    + simpl. rewrite concat_app. simpl. reflexivity.
Qed.

Lemma while_heap_inv (h : heap) (st : loop_state) :
  loop_inv st -> Forall item_ok h ->
  exists st',
    while_heap h st = Ok st'
    /\ loop_inv st'
    /\ concat (batches st') = concat (batches st) ++ map item_result h.
Proof.
  revert st. induction h as [| it h IH]; intros st Hinv Hall; simpl.
  - exists st. rewrite app_nil_r. auto.
  - inversion Hall as [| ? ? Hit Hall']; subst.
    destruct (loop_body_inv st it Hinv Hit) as (st1 & -> & Hinv1 & Hc1).
    simpl. destruct (IH st1 Hinv1 Hall') as (st2 & -> & Hinv2 & Hc2).
    exists st2. split; [reflexivity |]. split; [exact Hinv2 |].
    rewrite Hc2, Hc1, <- app_assoc. reflexivity.
Qed.

Lemma loop_inv_batches (st : loop_state) :
  loop_inv st -> Forall batch_ok (batches st).
Proof.
  intros (closed & running & -> & Hclosed & Hrun & _).
  apply Forall_app. split; [exact Hclosed | constructor; [exact Hrun | constructor]].
Qed.

Lemma batch_heap_ok (h : heap) :
  h <> [] -> Forall item_ok h ->
  exists bs,
    batch_heap h = Ok bs
    /\ Forall batch_ok bs
    /\ concat bs = map item_result h.
Proof.
  intros Hne Hall. destruct h as [| first h]; [congruence |].
  inversion Hall as [| ? ? Hfirst Hall']; subst.
  unfold batch_heap. rewrite heappop_cons. simpl bind.
  destruct first as [[size i] r].
  pose proof (loop_inv_init _ Hfirst) as Hinit.
  unfold item_result, item_size in Hinit. simpl in Hinit.
  destruct (while_heap_inv h _ Hinit Hall') as (st & Hst & Hinv & Hc).
  rewrite Hst. simpl.
  exists (batches st). split; [reflexivity |].
  split; [apply loop_inv_batches, Hinv |].
  rewrite Hc. reflexivity.
Qed.

Lemma merge_batch_merged (batch : list JobRunResult) :
  merge_batch batch = __init__ (stdout (merged batch)) (stderr (merged batch)).
Proof. reflexivity. Qed.

Lemma merge_batch_ok (batch : list JobRunResult) :
  batch_ok batch -> merge_batch batch = Ok (merged batch).
Proof.
  intros [[r [Hin Hne]] Hlen]. rewrite merge_batch_merged.
  apply init_valid. split; [| exact Hlen].
  eapply merged_truthy; eassumption.
Qed.

Lemma accumulate_from_ok (h : heap) :
  h <> [] -> Forall item_ok h ->
  exists bs,
    accumulate_from h = Ok (map merged bs)
    /\ Forall batch_ok bs
    /\ concat bs = map item_result h.
Proof.
  intros Hne Hall.
  destruct (batch_heap_ok h Hne Hall) as (bs & Hbs & Hok & Hc).
  exists bs. split; [| split; assumption].
  unfold accumulate_from. rewrite Hbs. simpl.
  apply mapM_Ok. eapply Forall_impl; [| exact Hok].
  intros b Hb. apply merge_batch_ok, Hb.
Qed.

Lemma push_all_nonempty (r : JobRunResult) (results : list JobRunResult) :
  push_all (r :: results) <> [].
Proof.
  intros H. pose proof (push_all_pop_order (r :: results)) as [Hp _].
  rewrite H in Hp. apply Permutation_nil in Hp. discriminate Hp.
Qed.

Lemma push_all_ok (results : list JobRunResult) :
  Forall valid results -> Forall item_ok (push_all results).
Proof.
  intros H. eapply Permutation_Forall.
  - apply Permutation_sym, push_all_pop_order.
  - apply heap_items_ok, H.
Qed.

Lemma push_all_results (results : list JobRunResult) :
  Permutation (map item_result (push_all results)) results.
Proof.
  rewrite <- (heap_items_results results) at 2.
  apply Permutation_map, push_all_pop_order.
Qed.

(** The batches behind the result of [accumulate]. *)
Lemma accumulate_ok (results : list JobRunResult) :
  Forall valid results ->
  exists bs,
    accumulate results = Ok (map merged bs)
    /\ Forall batch_ok bs
    /\ concat bs = map item_result (push_all results).
Proof.
  intros H. destruct results as [| r results].
  - exists []. repeat split; constructor.
  - apply accumulate_from_ok; [apply push_all_nonempty | apply push_all_ok, H].
Qed.

(** The loop never raises and keeps the records in the order of the pops,
    whatever the records are. *)

Lemma loop_body_concat (st : loop_state) (it : item) :
  batches st <> [] ->
  exists st',
    loop_body st it = Ok st'
    /\ batches st' <> []
    /\ concat (batches st') = concat (batches st) ++ [item_result it].
Proof.
  intros Hne. destruct (exists_last Hne) as (closed & running & Hb).
  destruct it as [[size i] r]. unfold item_result. simpl snd.
  destruct (Z.lt_ge_cases (latest_batch_size st + padding r + size)
              MAX_OUTPUT_BYTES) as [Hlt | Hge].
  - rewrite loop_body_append by exact Hlt.
    rewrite Hb, append_to_last_snoc. simpl.
    eexists. split; [reflexivity |]. simpl. split.
    + intros H. apply app_eq_nil in H. destruct H as [_ H]. discriminate H.
    + rewrite !concat_app. simpl. rewrite !app_nil_r, app_assoc. reflexivity.
  - rewrite loop_body_new_batch by exact Hge.
    eexists. split; [reflexivity |]. simpl. split.
    + intros H. apply app_eq_nil in H. destruct H as [_ H]. discriminate H.
    + rewrite concat_app. reflexivity.
Qed.

Lemma while_heap_concat (h : heap) (st : loop_state) :
  batches st <> [] ->
  exists st',
    while_heap h st = Ok st'
    /\ concat (batches st') = concat (batches st) ++ map item_result h.
Proof.
  revert st. induction h as [| it h IH]; intros st Hne; simpl.
  - exists st. rewrite app_nil_r. auto.
  - destruct (loop_body_concat st it Hne) as (st1 & -> & Hne1 & Hc1).
    simpl. destruct (IH st1 Hne1) as (st2 & -> & Hc2).
    exists st2. split; [reflexivity |].
    rewrite Hc2, Hc1, <- app_assoc. reflexivity.
Qed.

Lemma batch_heap_concat (h : heap) :
  h <> [] ->
  exists bs, batch_heap h = Ok bs /\ concat bs = map item_result h.
Proof.
  intros Hne. destruct h as [| [[size i] r] h]; [congruence |].
  unfold batch_heap. rewrite heappop_cons. simpl bind.
  destruct (while_heap_concat h (mkState [[r]] size)) as (st & Hst & Hc);
    [discriminate |].
  rewrite Hst. simpl. exists (batches st). split; [reflexivity |].
  rewrite Hc. reflexivity.
Qed.

Lemma enumerate_from_nth {A : Type} (start i : Z) (a : A) (l : list A) :
  In (i, a) (enumerate_from start l) ->
  start <= i /\ nth_error l (Z.to_nat (i - start)) = Some a.
Proof.
  revert start. induction l as [| x l IH]; intros start Hin; simpl in Hin.
  - contradiction.
  - destruct Hin as [Heq | Hin].
    + injection Heq as <- <-. rewrite Z.sub_diag. split; [lia | reflexivity].
    + destruct (IH _ Hin) as [Hge Hnth]. split; [lia |].
      replace (i - start) with (Z.succ (i - (start + 1))) by lia.
      rewrite Z2Nat.inj_succ by lia. exact Hnth.
Qed.

Lemma heap_items_keys (results : list JobRunResult) :
  Forall (fun it =>
            item_size it = len_in_bytes (item_result it)
            /\ 0 <= item_index it
            /\ nth_error results (Z.to_nat (item_index it))
               = Some (item_result it))
    (heap_items results).
Proof.
  apply Forall_forall. intros it Hit.
  unfold heap_items in Hit. apply in_map_iff in Hit.
  destruct Hit as [[i r] [<- Hin]].
  apply enumerate_from_nth in Hin. destruct Hin as [Hge Hnth].
  rewrite Z.sub_0_r in Hnth.
  unfold item_size, item_index, item_result. simpl. auto.
Qed.

Lemma eq_refl_JobRunResult (r : JobRunResult) : __eq__ r r = true.
Proof.
  unfold __eq__. apply andb_true_iff. split; apply str_eqb_eq; reflexivity.
Qed.

Lemma eq_JobRunResult (r r' : JobRunResult) : __eq__ r r' = true <-> r = r'.
Proof.
  unfold __eq__. rewrite andb_true_iff, !str_eqb_eq.
  destruct r, r'; simpl. split.
  - intros [-> ->]. reflexivity.
  - intros H. injection H as -> ->. auto.
Qed.

Lemma filter_flat_map {A B : Type} (f : B -> bool) (g : A -> list B)
  (l : list A) :
  filter f (flat_map g l) = flat_map (fun a => filter f (g a)) l.
Proof.
  induction l as [| a l IH]; simpl; [reflexivity |].
  rewrite filter_app, IH. reflexivity.
Qed.

Lemma pieces_merged (chan : JobRunResult -> str)
  (bs : list (list JobRunResult)) :
  (forall b, chan (merged b) = joined chan b) ->
  Forall (fun r => ~ In newline (chan r)) (concat bs) ->
  filter truthy (pieces chan (map merged bs)) = channel_values chan (concat bs).
Proof.
  intros Hchan Hn. unfold pieces. rewrite filter_flat_map, flat_map_concat_map.
  rewrite map_map, channel_values_concat, flat_map_concat_map. f_equal.
  induction bs as [| b bs IH]; simpl; [reflexivity |].
  simpl in Hn. apply Forall_app in Hn. destruct Hn as [Hb Hbs].
  rewrite Hchan, pieces_joined by exact Hb. rewrite IH by exact Hbs.
  reflexivity.
Qed.

Ltac prove_valid :=
  split; [first [left; reflexivity | right; reflexivity]
         | vm_compute; discriminate].

Ltac prove_all_valid := repeat (constructor; [prove_valid |]); constructor.

Lemma valid_of_len (r : JobRunResult) (n : Z) :
  len_in_bytes r = n -> 0 < n <= MAX_OUTPUT_BYTES -> valid r.
Proof.
  intros Hlen Hn. split; [| lia].
  rewrite len_in_bytes_eq in Hlen.
  destruct (truthy (stdout r)) eqn:Ho; [left; reflexivity |].
  destruct (truthy (stderr r)) eqn:He; [right; reflexivity |].
  apply truthy_false in Ho, He. rewrite Ho, He in Hlen.
  rewrite byte_len_nil in Hlen. lia.
Qed.

(** ** Scenarios *)

Example accumulate_nil : accumulate [] = Ok [].
Proof. reflexivity. Qed.

Example accumulate_out_err :
  accumulate [R_err "err1"; R_out "out1"]
  = Ok [mkJobRunResult (py "out1") (py "err1")].
Proof. reflexivity. Qed.

Example push_all_ties :
  push_all [R_out "bb"; R_out "a"; R_err "c"]
  = [(1, 1, R_out "a"); (1, 2, R_err "c"); (2, 0, R_out "bb")].
Proof. reflexivity. Qed.

(** * The claims *)

(** C1 (ceiling invariant).  For every list of valid records, [accumulate]
    returns a list, and every record of that list has [len_in_bytes] at most
    [MAX_OUTPUT_BYTES] (1500). *)
Theorem accumulate_within_ceiling (results : list JobRunResult) :
  Forall valid results ->
  exists out,
    accumulate results = Ok out
    /\ Forall (fun r => len_in_bytes r <= MAX_OUTPUT_BYTES) out.
Proof.
  intros H. destruct (accumulate_ok results H) as (bs & Hacc & Hok & _).
  exists (map merged bs). split; [exact Hacc |].
  apply Forall_map. eapply Forall_impl; [| exact Hok].
  intros b [_ Hlen]. exact Hlen.
Qed.

Lemma accumulate_within_ceiling_witness :
  Forall valid [R_out "out1"; R_err "err1"; R_bytes 1500; R_bytes 700]
  /\ exists out,
      accumulate [R_out "out1"; R_err "err1"; R_bytes 1500; R_bytes 700]
      = Ok out
      /\ Forall (fun r => len_in_bytes r <= MAX_OUTPUT_BYTES) out.
Proof.
  assert (Forall valid [R_out "out1"; R_err "err1"; R_bytes 1500; R_bytes 700])
    as H by prove_all_valid.
  split; [exact H | exact (accumulate_within_ceiling _ H)].
Defined.

(** C3 (no failure on validated input).  For every list of valid records
    [accumulate] returns normally: the heap is never popped when empty, the
    loop never indexes an empty list of batches, and the constructor call
    made for each batch returns the merged record, raising neither for
    emptiness nor for the ceiling. *)
Theorem accumulate_returns (results : list JobRunResult) :
  Forall valid results ->
  returns (accumulate results)
  /\ (results <> [] ->
      exists bs,
        batch_heap (push_all results) = Ok bs
        /\ Forall (fun b => merge_batch b = Ok (merged b)) bs).
Proof.
  intros H. split.
  - destruct (accumulate_ok results H) as (bs & Hacc & _).
    exists (map merged bs). exact Hacc.
  - intros Hne. destruct results as [| r results]; [congruence |].
    destruct (batch_heap_ok (push_all (r :: results))) as (bs & Hbs & Hok & _).
    + apply push_all_nonempty.
    + apply push_all_ok, H.
    + exists bs. split; [exact Hbs |].
      eapply Forall_impl; [| exact Hok].
      intros b Hb. apply merge_batch_ok, Hb.
Qed.

Lemma accumulate_returns_witness :
  Forall valid [R_bytes 800; R_err_bytes 699; R_out "x"; R_bytes 1500]
  /\ returns (accumulate [R_bytes 800; R_err_bytes 699; R_out "x"; R_bytes 1500]).
Proof.
  assert (Forall valid [R_bytes 800; R_err_bytes 699; R_out "x"; R_bytes 1500])
    as H by prove_all_valid.
  split; [exact H | exact (proj1 (accumulate_returns _ H))].
Defined.

(** C7 (construction).  The constructor raises (a [ValueError], which the
    specification calls ValidationError) if and only if both channels are
    empty or the byte lengths of the two channels add up to more than
    [MAX_OUTPUT_BYTES]; otherwise it returns the record of the two channels.
    With exactly 1500 bytes and a non-empty channel it returns. *)
Theorem init_raises_iff (o e : str) :
  ((exists msg, __init__ o e = Raise (ValueError msg)) <->
   (o = [] /\ e = []) \/ MAX_OUTPUT_BYTES < byte_len o + byte_len e)
  /\ ((forall ex, __init__ o e <> Raise ex) ->
      __init__ o e = Ok (mkJobRunResult o e))
  /\ (byte_len o + byte_len e = 1500 -> o <> [] \/ e <> [] ->
      __init__ o e = Ok (mkJobRunResult o e)).
Proof.
  assert (Hlen : len_in_bytes (mkJobRunResult o e) = byte_len o + byte_len e)
    by apply len_in_bytes_eq.
  assert (Hcases :
            (o = [] /\ e = [] /\ __init__ o e = Raise (ValueError empty_message))
            \/ (MAX_OUTPUT_BYTES < byte_len o + byte_len e
                /\ (truthy o = true \/ truthy e = true)
                /\ __init__ o e = Raise (ValueError too_large_message))
            \/ (byte_len o + byte_len e <= MAX_OUTPUT_BYTES
                /\ (truthy o = true \/ truthy e = true)
                /\ __init__ o e = Ok (mkJobRunResult o e))).
  { unfold __init__. rewrite Hlen.
    destruct (truthy o) eqn:Ho, (truthy e) eqn:He; simpl;
      try (destruct (Z.gtb_spec (byte_len o + byte_len e) MAX_OUTPUT_BYTES);
           [right; left | right; right]; repeat split; auto; lia).
    left. apply truthy_false in Ho, He. auto. }
  split; [split |]; [| | split].
  - intros [msg Hmsg].
    destruct Hcases as [(Ho & He & _) | [(Hgt & _) | (_ & _ & Hok)]]; auto.
    rewrite Hok in Hmsg. discriminate Hmsg.
  - intros [[Ho He] | Hgt].
    + destruct Hcases as [(_ & _ & Hr) | [(_ & _ & Hr) | (_ & [Ht | Ht] & _)]];
        try (eexists; exact Hr); subst; discriminate Ht.
    + destruct Hcases as [(_ & _ & Hr) | [(_ & _ & Hr) | (Hle & _)]];
        try (eexists; exact Hr); lia.
  - intros Hno.
    destruct Hcases as [(_ & _ & Hr) | [(_ & _ & Hr) | (_ & _ & Hok)]];
      [exfalso; eapply Hno, Hr | exfalso; eapply Hno, Hr | exact Hok].
  - intros Hsize Hne. apply init_Ok.
    + destruct Hne as [Hne | Hne]; [left | right]; apply truthy_true, Hne.
    + rewrite Hlen, Hsize. unfold MAX_OUTPUT_BYTES. lia.
Qed.

Lemma init_raises_iff_witness :
  __init__ (repeat 120%N 1500) []
  = Ok (mkJobRunResult (repeat 120%N 1500) []).
Proof.
  refine (proj2 (proj2 (init_raises_iff (repeat 120%N 1500) [])) _ _).
  - vm_compute. reflexivity.
  - left. discriminate.
Defined.

(** C10 (singleton).  For a valid record [r], [accumulate [r]] returns the
    one-element list of a record equal to [r]: same stdout and same stderr. *)
Theorem accumulate_singleton (r : JobRunResult) :
  valid r ->
  exists r',
    accumulate [r] = Ok [r'] /\ __eq__ r' r = true /\ r' = r.
Proof.
  intros H. exists r. split; [| split; [apply eq_refl_JobRunResult | reflexivity]].
  unfold accumulate, push_all, heap_items, enumerate. simpl.
  unfold accumulate_from, batch_heap. simpl.
  rewrite merge_batch_merged, merged_single, init_valid by exact H.
  reflexivity.
Qed.

Lemma accumulate_singleton_witness :
  valid (mkJobRunResult (py "out") (py "err"))
  /\ exists r',
      accumulate [mkJobRunResult (py "out") (py "err")] = Ok [r']
      /\ __eq__ r' (mkJobRunResult (py "out") (py "err")) = true
      /\ r' = mkJobRunResult (py "out") (py "err").
Proof.
  assert (valid (mkJobRunResult (py "out") (py "err"))) as H by prove_valid.
  split; [exact H | exact (accumulate_singleton _ H)].
Defined.

(** The sum 699 + 1 + 800 reaches the ceiling exactly, and the record opens
    a batch of its own; one byte less and it joins the running batch. *)
Example loop_body_at_ceiling :
  loop_body (mkState [[R_bytes 699]] 699) (800, 1, R_bytes 800)
  = Ok (mkState [[R_bytes 699]; [R_bytes 800]] 800)
  /\ loop_body (mkState [[R_bytes 698]] 698) (800, 1, R_bytes 800)
     = Ok (mkState [[R_bytes 698; R_bytes 800]] 1499).
Proof. split; vm_compute; reflexivity. Qed.

(** C8 (determinism).  Two runs of [accumulate] on the same list give the
    same list of records, whatever order of equal priorities the heap behind
    each run would prefer: every order of pops that a priority queue may
    produce for the input is the order of [push_all], so both runs agree with
    [accumulate], in the number of records and record by record. *)
Theorem accumulate_deterministic (results : list JobRunResult)
  (order1 order2 : list item) :
  pop_order results order1 ->
  pop_order results order2 ->
  accumulate_popping results order1 = accumulate results
  /\ accumulate_popping results order2 = accumulate results
  /\ (forall out1 out2,
        accumulate_popping results order1 = Ok out1 ->
        accumulate_popping results order2 = Ok out2 ->
        length out1 = length out2
        /\ Forall2 (fun a b => __eq__ a b = true) out1 out2).
Proof.
  intros H1 H2.
  apply pop_order_unique in H1, H2. subst order1 order2.
  split; [destruct results; reflexivity |].
  split; [destruct results; reflexivity |].
  intros out1 out2 E1 E2. rewrite E1 in E2. injection E2 as <-.
  split; [reflexivity |].
  clear E1. induction out1 as [| r out1 IH]; constructor.
  - apply eq_refl_JobRunResult.
  - exact IH.
Qed.

Lemma accumulate_deterministic_witness :
  accumulate_popping [R_out "bb"; R_out "a"; R_err "c"]
    [(1, 1, R_out "a"); (1, 2, R_err "c"); (2, 0, R_out "bb")]
  = accumulate [R_out "bb"; R_out "a"; R_err "c"].
Proof.
  assert (pop_order [R_out "bb"; R_out "a"; R_err "c"]
            [(1, 1, R_out "a"); (1, 2, R_err "c"); (2, 0, R_out "bb")]) as H.
  { split.
    - unfold heap_items, enumerate. simpl.
      change (len_in_bytes (R_out "bb")) with 2.
      change (len_in_bytes (R_out "a")) with 1.
      change (len_in_bytes (R_err "c")) with 1.
      apply Permutation_sym.
      apply (Permutation_middle [(1, 1, R_out "a"); (1, 2, R_err "c")] []
               (2, 0, R_out "bb")).
    - repeat (constructor; [| repeat (constructor; try reflexivity)]).
      constructor. }
  exact (proj1 (accumulate_deterministic _ _ _ H H)).
Defined.

(** C2 as stated fails: a stdout value that itself holds a newline comes
    back as two pieces, so the pieces of the output are not the stdout values
    of the input, with or without the empty pieces. *)
Lemma pieces_of_lines_counterexample :
  valid two_lines
  /\ accumulate [two_lines] = Ok [two_lines]
  /\ pieces stdout [two_lines] = [py "a"; py "b"]
  /\ channel_values stdout [two_lines] = [py "a" ++ nl ++ py "b"]
  /\ ~ Permutation (pieces stdout [two_lines])
         (channel_values stdout [two_lines])
  /\ ~ Permutation (filter truthy (pieces stdout [two_lines]))
         (channel_values stdout [two_lines]).
Proof.
  split; [prove_valid |].
  split; [reflexivity |].
  split; [reflexivity |].
  split; [reflexivity |].
  split; intros H; apply Permutation_length in H; discriminate H.
Qed.

(** A channel that is empty in an output record splits into one empty
    piece, which is why the pieces are counted without the empty ones. *)
Example pieces_of_empty_channel :
  accumulate [R_err "x"] = Ok [R_err "x"]
  /\ pieces stdout [R_err "x"] = [[]]
  /\ channel_values stdout [R_err "x"] = [].
Proof. repeat split. Qed.

(** C2 (content preservation), amended.  For either channel: when the
    input records are valid and none of them holds a newline in that
    channel, the non-empty pieces obtained by splitting that channel of the
    output records on the newline are, as a multiset, the values of that
    channel among the input records where it is not empty. *)
Theorem accumulate_preserves_lines (chan : JobRunResult -> str)
  (results : list JobRunResult) :
  chan = stdout \/ chan = stderr ->
  Forall valid results ->
  Forall (fun r => ~ In newline (chan r)) results ->
  exists out,
    accumulate results = Ok out
    /\ Permutation (filter truthy (pieces chan out))
         (channel_values chan results).
Proof.
  intros Hchan Hvalid Hn.
  destruct (accumulate_ok results Hvalid) as (bs & Hacc & _ & Hc).
  exists (map merged bs). split; [exact Hacc |].
  pose proof (push_all_results results) as Hperm. rewrite <- Hc in Hperm.
  rewrite pieces_merged.
  - apply channel_values_perm, Hperm.
  - intros b. destruct Hchan as [-> | ->]; reflexivity.
  - eapply Permutation_Forall; [apply Permutation_sym, Hperm | exact Hn].
Qed.

Lemma accumulate_preserves_lines_witness :
  exists out,
    accumulate [R_out "out2"; R_err "err1"; R_out "out1"] = Ok out
    /\ Permutation (filter truthy (pieces stdout out))
         (channel_values stdout [R_out "out2"; R_err "err1"; R_out "out1"]).
Proof.
  apply (accumulate_preserves_lines stdout).
  - left. reflexivity.
  - prove_all_valid.
  - repeat (constructor;
            [vm_compute; intros H; repeat (destruct H as [H | H];
                                           [discriminate H |]); exact H |]).
    constructor.
Defined.

(** C5 as stated fails: the loop charges a delimiter byte for a record that
    only has stderr although the running batch has no stderr yet, where a
    padding tracked per channel charges none; so two records that would
    merge into 1499 bytes stay apart. *)
Lemma padding_per_channel_counterexample :
  padding (R_err "b") <> delimiters_needed [R_out "a"] (R_err "b")
  /\ loop_body seeded_state second_item
     <> loop_body_precise seeded_state second_item
  /\ accumulate [R_bytes 749; R_err_bytes 750]
     = Ok [R_bytes 749; R_err_bytes 750]
  /\ len_in_bytes (merged [R_bytes 749; R_err_bytes 750]) = 1499.
Proof.
  split; [vm_compute; discriminate |].
  split; [vm_compute; discriminate |].
  split; vm_compute; reflexivity.
Qed.

(** C5 (padding), amended.  The padding charged for the popped record comes
    from that record alone: 2 when both of its channels are non-empty and 1
    otherwise, whatever the running batch holds.  It is never less than the
    delimiter bytes that the join adds for the record, so the size the loop
    tracks bounds the size of the merged record. *)
Theorem padding_from_next_record (st : loop_state)
  (closed : list (list JobRunResult)) (running : list JobRunResult)
  (size i : Z) (r : JobRunResult) :
  batches st = closed ++ [running] ->
  padding r = (if truthy (stdout r) && truthy (stderr r) then 2 else 1)
  /\ loop_body st (size, i, r)
     = (if latest_batch_size st + padding r + size <? MAX_OUTPUT_BYTES
        then Ok (mkState (closed ++ [running ++ [r]])
                   (latest_batch_size st + (padding r + size)))
        else Ok (mkState (closed ++ [running] ++ [[r]]) size))
  /\ 0 <= delimiters_needed running r <= padding r
  /\ len_in_bytes (merged (running ++ [r]))
     <= len_in_bytes (merged running) + padding r + len_in_bytes r.
Proof.
  intros Hb. split; [reflexivity |]. split; [| split].
  - destruct (Z.ltb_spec (latest_batch_size st + padding r + size)
                MAX_OUTPUT_BYTES) as [Hlt | Hge].
    + rewrite loop_body_append by exact Hlt.
      rewrite Hb, append_to_last_snoc. reflexivity.
    + rewrite loop_body_new_batch by exact Hge.
      rewrite Hb, <- app_assoc. reflexivity.
  - apply delimiters_needed_le_padding.
  - rewrite merged_snoc.
    pose proof (delimiters_needed_le_padding running r). lia.
Qed.

Lemma padding_from_next_record_witness :
  padding (R_err "b") = 1
  /\ loop_body seeded_state second_item
     = Ok (mkState [[R_out "a"; R_err "b"]] 3)
  /\ delimiters_needed [R_out "a"] (R_err "b") = 0.
Proof.
  pose proof (padding_from_next_record seeded_state [] [R_out "a"] 1 1
                (R_err "b") eq_refl) as (Hp & Hbody & _).
  split; [exact Hp |]. split; [exact Hbody | reflexivity].
Defined.

(** C9 as stated fails: the value [''] formatted with ['%s'] is the empty
    string, and both factories raise for emptiness. *)
Lemma as_stdout_empty_counterexample :
  format_value false empty_str_object = []
  /\ as_stdout empty_str_object false = Raise (ValueError empty_message)
  /\ as_stderr empty_str_object false = Raise (ValueError empty_message).
Proof. repeat split. Qed.

(** C9 (factories), amended.  [as_stdout] and [as_stderr] raise for
    emptiness exactly when the string conversion of the value is the empty
    string; when the conversion is not empty they return the record of that
    string, unless its byte length exceeds the ceiling, which is then the
    failure. *)
Theorem factories_raise_empty_iff (value : pyobject) (use_repr : bool) :
  (as_stdout value use_repr = Raise (ValueError empty_message)
   <-> format_value use_repr value = [])
  /\ (as_stderr value use_repr = Raise (ValueError empty_message)
      <-> format_value use_repr value = [])
  /\ (format_value use_repr value <> [] ->
      (byte_len (format_value use_repr value) <= MAX_OUTPUT_BYTES
       /\ as_stdout value use_repr
          = Ok (mkJobRunResult (format_value use_repr value) [])
       /\ as_stderr value use_repr
          = Ok (mkJobRunResult [] (format_value use_repr value)))
      \/ (MAX_OUTPUT_BYTES < byte_len (format_value use_repr value)
          /\ as_stdout value use_repr = Raise (ValueError too_large_message)
          /\ as_stderr value use_repr = Raise (ValueError too_large_message))).
Proof.
  unfold as_stdout, as_stderr. set (s := format_value use_repr value).
  cbv zeta.
  assert (Ho : len_in_bytes (mkJobRunResult s []) = byte_len s)
    by (rewrite len_in_bytes_eq; cbn [stdout stderr]; rewrite byte_len_nil; lia).
  assert (He : len_in_bytes (mkJobRunResult [] s) = byte_len s)
    by (rewrite len_in_bytes_eq; cbn [stdout stderr]; rewrite byte_len_nil; lia).
  unfold __init__. rewrite Ho, He.
  destruct s as [| c s']; simpl.
  - repeat split; congruence.
  - set (n := byte_len (c :: s')).
    destruct (Z.gtb_spec n MAX_OUTPUT_BYTES) as [Hgt | Hle].
    + split; [split; [intros H; inversion H | discriminate] |].
      split; [split; [intros H; inversion H | discriminate] |].
      intros _. right. repeat split. lia.
    + split; [split; discriminate |].
      split; [split; discriminate |].
      intros _. left. repeat split. exact Hle.
Qed.

Lemma factories_raise_empty_iff_witness :
  as_stdout none_object false = Ok (mkJobRunResult (py "None") [])
  /\ as_stderr empty_str_object true = Ok (mkJobRunResult [] (py "''")).
Proof.
  split.
  - destruct (proj2 (proj2 (factories_raise_empty_iff none_object false)))
      as [(_ & H & _) | (Hgt & _)].
    + discriminate.
    + exact H.
    + exfalso. vm_compute in Hgt. discriminate Hgt.
  - reflexivity.
Defined.

(** * Further properties of [JobRunResult] *)

(** ** Outcomes of the constructor and of the last loop *)

Lemma init_cases (o e : str) :
  (o = [] /\ e = [] /\ __init__ o e = Raise (ValueError empty_message))
  \/ (MAX_OUTPUT_BYTES < len_in_bytes (mkJobRunResult o e)
      /\ __init__ o e = Raise (ValueError too_large_message))
  \/ (valid (mkJobRunResult o e) /\ __init__ o e = Ok (mkJobRunResult o e)).
Proof.
  unfold __init__, valid. cbn [stdout stderr].
  destruct (truthy o) eqn:Ho, (truthy e) eqn:He; simpl;
    try (destruct (Z.gtb_spec (len_in_bytes (mkJobRunResult o e))
                     MAX_OUTPUT_BYTES);
         [right; left | right; right]; repeat split; auto; lia).
  left. apply truthy_false in Ho, He. auto.
Qed.

Lemma mapM_Ok_inv {A B : Type} (f : A -> M B) (l : list A) (out : list B) :
  mapM f l = Ok out -> Forall2 (fun a b => f a = Ok b) l out.
Proof.
  revert out. induction l as [| a l IH]; intros out H; simpl in H.
  - injection H as <-. constructor.
  - destruct (f a) as [b | ex] eqn:Hb; simpl in H; [| discriminate H].
    destruct (mapM f l) as [bs | ex] eqn:Hbs; simpl in H; [| discriminate H].
    injection H as <-. constructor; [exact Hb | apply IH; reflexivity].
Qed.

Lemma mapM_outcomes {A B : Type} (f : A -> M B) (P : exn -> Prop)
  (l : list A) :
  Forall (fun a => returns (f a) \/ exists ex, f a = Raise ex /\ P ex) l ->
  returns (mapM f l) \/ exists ex, mapM f l = Raise ex /\ P ex.
Proof.
  induction 1 as [| a l Ha _ IH]; simpl.
  - left. exists []. reflexivity.
  - destruct Ha as [[b ->] | (ex & -> & Hex)]; simpl.
    + destruct IH as [[bs ->] | (ex & -> & Hex)]; simpl.
      * left. eexists. reflexivity.
      * right. exists ex. auto.
    + right. exists ex. auto.
Qed.

Lemma merge_batch_outcomes (batch : list JobRunResult) :
  returns (merge_batch batch)
  \/ exists ex,
      merge_batch batch = Raise ex
      /\ (ex = ValueError empty_message \/ ex = ValueError too_large_message).
Proof.
  rewrite merge_batch_merged.
  destruct (init_cases (stdout (merged batch)) (stderr (merged batch)))
    as [(_ & _ & H) | [(_ & H) | (_ & H)]]; rewrite H.
  - right. eexists. auto.
  - right. eexists. auto.
  - left. eexists. reflexivity.
Qed.

Lemma batch_ok_valid (batch : list JobRunResult) :
  batch_ok batch -> valid (merged batch).
Proof.
  intros [[r [Hin Hne]] Hlen]. split; [| exact Hlen].
  eapply merged_truthy; eassumption.
Qed.

Lemma len_in_bytes_nonneg (r : JobRunResult) : 0 <= len_in_bytes r.
Proof.
  rewrite len_in_bytes_eq.
  pose proof (byte_len_nonneg (stdout r)).
  pose proof (byte_len_nonneg (stderr r)). lia.
Qed.

Lemma merged_ge_member (batch : list JobRunResult) (r : JobRunResult) :
  In r batch -> len_in_bytes r <= len_in_bytes (merged batch).
Proof.
  induction batch as [| x batch IH] using rev_ind; intros Hin.
  - contradiction.
  - rewrite merged_snoc.
    pose proof (delimiters_needed_le_padding batch x) as [Hd _].
    pose proof (len_in_bytes_nonneg x).
    pose proof (len_in_bytes_nonneg (merged batch)).
    apply in_app_or in Hin. destruct Hin as [Hin | [<- | []]].
    + specialize (IH Hin). lia.
    + lia.
Qed.

Lemma Forall2_in_l_exists {A B : Type} (P : A -> B -> Prop) (l : list A)
  (l' : list B) (a : A) :
  Forall2 P l l' -> In a l -> exists b, P a b.
Proof.
  induction 1 as [| x y l l' Hxy _ IH]; intros Hin.
  - contradiction.
  - destruct Hin as [-> | Hin]; [exists y; exact Hxy | apply IH, Hin].
Qed.

Lemma accumulate_as_mapM (r : JobRunResult) (results : list JobRunResult) :
  exists bs,
    accumulate (r :: results) = mapM merge_batch bs
    /\ concat bs = map item_result (push_all (r :: results)).
Proof.
  destruct (batch_heap_concat (push_all (r :: results)))
    as (bs & Hbs & Hc); [apply push_all_nonempty |].
  exists bs. split; [| exact Hc].
  unfold accumulate, accumulate_from. rewrite Hbs. reflexivity.
Qed.

Lemma mapM_merge_batch_outcomes (bs : list (list JobRunResult)) :
  returns (mapM merge_batch bs)
  \/ mapM merge_batch bs = Raise (ValueError empty_message)
  \/ mapM merge_batch bs = Raise (ValueError too_large_message).
Proof.
  destruct (mapM_outcomes merge_batch
              (fun ex => ex = ValueError empty_message
                         \/ ex = ValueError too_large_message) bs)
    as [H | (ex & H & [-> | ->])]; auto.
  apply Forall_forall. intros b _. apply merge_batch_outcomes.
Qed.

(** X2.  [accumulate] leaves only through the constructor: for any list of
    records, valid or not, it returns or raises one of the two [ValueError]s
    of the constructor; it never raises [IndexError]. *)
Theorem accumulate_raises_only_ValueError (results : list JobRunResult) :
  returns (accumulate results)
  \/ accumulate results = Raise (ValueError empty_message)
  \/ accumulate results = Raise (ValueError too_large_message).
Proof.
  destruct results as [| r results].
  - left. exists []. reflexivity.
  - destruct (accumulate_as_mapM r results) as (bs & -> & _).
    apply mapM_merge_batch_outcomes.
Qed.

(** X3.  A record above the ceiling, which only [__setstate__] or an
    assignment to a slot can produce, is never passed on: [accumulate]
    raises a [ValueError] of the constructor when the input holds one. *)
Theorem accumulate_rejects_oversize (results : list JobRunResult) :
  Exists (fun r => MAX_OUTPUT_BYTES < len_in_bytes r) results ->
  accumulate results = Raise (ValueError empty_message)
  \/ accumulate results = Raise (ValueError too_large_message).
Proof.
  intros Hex.
  apply Exists_exists in Hex. destruct Hex as (r & Hin & Hbig).
  destruct results as [| r0 results]; [contradiction |].
  destruct (accumulate_as_mapM r0 results) as (bs & -> & Hc).
  destruct (mapM_merge_batch_outcomes bs) as [[out Hout] | H];
    [exfalso | exact H].
  apply mapM_Ok_inv in Hout.
  assert (In r (concat bs)) as Hr.
  { rewrite Hc. eapply Permutation_in;
      [apply Permutation_sym, push_all_results | exact Hin]. }
  apply in_concat in Hr. destruct Hr as (b & Hb & Hrb).
  destruct (Forall2_in_l_exists _ _ _ _ Hout Hb) as (r' & Hr').
  rewrite merge_batch_merged in Hr'. apply init_Ok_inv in Hr'.
  destruct Hr' as (-> & _ & Hlen).
  pose proof (merged_ge_member b r Hrb) as Hge.
  destruct (merged b) as [mo me]. simpl in Hlen. lia.
Qed.

Lemma accumulate_rejects_oversize_witness :
  accumulate [R_out "a"; __setstate__ (R_out "b") (repeat 120%N 1501, [])]
  = Raise (ValueError empty_message)
  \/ accumulate [R_out "a"; __setstate__ (R_out "b") (repeat 120%N 1501, [])]
     = Raise (ValueError too_large_message).
Proof.
  apply accumulate_rejects_oversize.
  apply Exists_cons_tl, Exists_cons_hd. vm_compute. reflexivity.
Defined.

(** ** What the output of [accumulate] looks like *)

Lemma padding_bounds (r : JobRunResult) : 1 <= padding r <= 2.
Proof.
  unfold padding. destruct (truthy (stdout r) && truthy (stderr r)); lia.
Qed.

Lemma sum_from (l : list Z) (a : Z) : fold_left Z.add l a = a + sum l.
Proof.
  unfold sum. revert a. induction l as [| x l IH]; intros a; simpl.
  - lia.
  - rewrite IH, (IH x). lia.
Qed.

Lemma total_bytes_cons (r : JobRunResult) (l : list JobRunResult) :
  total_bytes (r :: l) = len_in_bytes r + total_bytes l.
Proof. unfold total_bytes, sum. simpl. rewrite sum_from. reflexivity. Qed.

Lemma total_bytes_app (l l' : list JobRunResult) :
  total_bytes (l ++ l') = total_bytes l + total_bytes l'.
Proof.
  induction l as [| r l IH]; simpl.
  - reflexivity.
  - rewrite !total_bytes_cons, IH. lia.
Qed.

Lemma total_bytes_perm (l l' : list JobRunResult) :
  Permutation l l' -> total_bytes l = total_bytes l'.
Proof.
  induction 1 as [| x l l' _ IH | x y l | l l' l'' _ IH1 _ IH2].
  - reflexivity.
  - rewrite !total_bytes_cons, IH. reflexivity.
  - rewrite !total_bytes_cons. lia.
  - congruence.
Qed.

Lemma merged_bytes (batch : list JobRunResult) :
  batch <> [] ->
  total_bytes batch <= len_in_bytes (merged batch)
  /\ len_in_bytes (merged batch) <= total_bytes batch + 2 * (len batch - 1).
Proof.
  induction batch as [| x batch IH] using rev_ind; intros Hne; [congruence |].
  destruct batch as [| y batch].
  - simpl app. rewrite merged_single, total_bytes_cons.
    change (total_bytes []) with 0. change (len [x]) with 1. lia.
  - destruct IH as [IHl IHu]; [discriminate |].
    rewrite merged_snoc, total_bytes_app, (total_bytes_cons x []), len_app.
    change (total_bytes []) with 0. change (len [x]) with 1.
    pose proof (delimiters_needed_le_padding (y :: batch) x).
    pose proof (padding_bounds x). lia.
Qed.

Lemma batch_ok_nonempty (batch : list JobRunResult) :
  batch_ok batch -> batch <> [].
Proof. intros [[r [Hin _]] _] ->. contradiction. Qed.

Lemma merged_batches_bytes (bs : list (list JobRunResult)) :
  Forall (fun b => b <> []) bs ->
  total_bytes (concat bs) <= total_bytes (map merged bs)
  /\ total_bytes (map merged bs)
     <= total_bytes (concat bs) + 2 * (len (concat bs) - len bs).
Proof.
  induction 1 as [| b bs Hb _ IH]; cbn [concat map].
  - unfold total_bytes, sum, len. simpl. lia.
  - rewrite total_bytes_cons, total_bytes_app, len_app.
    pose proof (merged_bytes b Hb).
    unfold len in *. cbn [length]. lia.
Qed.

Lemma concat_length_ge {A : Type} (bs : list (list A)) :
  Forall (fun b => b <> []) bs -> (length bs <= length (concat bs))%nat.
Proof.
  induction 1 as [| b bs Hb _ IH]; simpl; [lia |].
  rewrite length_app. destruct b; [congruence | simpl; lia].
Qed.

Lemma batches_nonempty (bs : list (list JobRunResult)) :
  Forall batch_ok bs -> Forall (fun b => b <> []) bs.
Proof.
  intros H. eapply Forall_impl; [| exact H].
  intros b. apply batch_ok_nonempty.
Qed.

Lemma concat_batches_length (results : list JobRunResult)
  (bs : list (list JobRunResult)) :
  concat bs = map item_result (push_all results) ->
  length (concat bs) = length results.
Proof.
  intros ->. apply Permutation_length, push_all_results.
Qed.

(** X4.  The output of [accumulate] on valid records is again a list of
    valid records, so it can be handed to [accumulate] once more, which
    returns. *)
Theorem accumulate_output_valid (results : list JobRunResult) :
  Forall valid results ->
  exists out,
    accumulate results = Ok out
    /\ Forall valid out
    /\ returns (accumulate out).
Proof.
  intros H. destruct (accumulate_ok results H) as (bs & Hacc & Hok & _).
  assert (Forall valid (map merged bs)) as Hvalid.
  { apply Forall_map. eapply Forall_impl; [| exact Hok].
    intros b. apply batch_ok_valid. }
  exists (map merged bs). split; [exact Hacc |]. split; [exact Hvalid |].
  destruct (accumulate_ok _ Hvalid) as (bs' & Hacc' & _).
  eexists. exact Hacc'.
Qed.

Lemma accumulate_output_valid_witness :
  exists out,
    accumulate [R_bytes 800; R_err_bytes 699; R_out "x"; R_bytes 1500] = Ok out
    /\ Forall valid out
    /\ returns (accumulate out).
Proof.
  apply accumulate_output_valid. prove_all_valid.
Defined.

(** X5.  [accumulate] never returns more records than it was given, and for
    valid records it returns the empty list only for the empty list. *)
Theorem accumulate_length (results : list JobRunResult) :
  Forall valid results ->
  exists out,
    accumulate results = Ok out
    /\ (length out <= length results)%nat
    /\ (out = [] <-> results = []).
Proof.
  intros H. destruct (accumulate_ok results H) as (bs & Hacc & Hok & Hc).
  exists (map merged bs). split; [exact Hacc |].
  pose proof (concat_length_ge bs (batches_nonempty bs Hok)) as Hle.
  rewrite (concat_batches_length results bs Hc) in Hle.
  rewrite length_map. split; [exact Hle |].
  split.
  - intros Hnil. destruct results as [| r results]; [reflexivity |].
    exfalso. destruct bs as [| b bs]; [| discriminate Hnil].
    simpl in Hc. pose proof (push_all_nonempty r results) as Hne.
    destruct (push_all (r :: results)); [congruence | discriminate Hc].
  - intros ->. simpl in Hacc. injection Hacc as Hacc. congruence.
Qed.

Lemma accumulate_length_witness :
  exists out,
    accumulate [R_bytes 800; R_err_bytes 800; R_out "x"] = Ok out
    /\ (length out <= 3)%nat
    /\ (out = [] <-> [R_bytes 800; R_err_bytes 800; R_out "x"] = []).
Proof.
  apply (accumulate_length [R_bytes 800; R_err_bytes 800; R_out "x"]).
  prove_all_valid.
Defined.

(** X6.  No byte of a valid input is lost and only delimiters are added:
    the bytes of the output are at least the bytes of the input, and exceed
    them by at most two for each record that was merged into another. *)
Theorem accumulate_total_bytes (results : list JobRunResult) :
  Forall valid results ->
  exists out,
    accumulate results = Ok out
    /\ total_bytes results <= total_bytes out
    /\ total_bytes out <= total_bytes results + 2 * (len results - len out).
Proof.
  intros H. destruct (accumulate_ok results H) as (bs & Hacc & Hok & Hc).
  exists (map merged bs). split; [exact Hacc |].
  pose proof (merged_batches_bytes bs (batches_nonempty bs Hok)) as [Hl Hu].
  assert (total_bytes (concat bs) = total_bytes results) as Ht.
  { rewrite Hc. apply total_bytes_perm, push_all_results. }
  assert (len (concat bs) = len results) as Hn.
  { unfold len. rewrite (concat_batches_length results bs Hc). reflexivity. }
  assert (len (map merged bs) = len bs) as Hm.
  { unfold len. rewrite length_map. reflexivity. }
  rewrite Ht in Hl, Hu. rewrite Hn in Hu. rewrite Hm. lia.
Qed.

Lemma accumulate_total_bytes_witness :
  exists out,
    accumulate [R_out "out2"; mkJobRunResult (py "o") (py "e"); R_out "out1"]
    = Ok out
    /\ total_bytes
         [R_out "out2"; mkJobRunResult (py "o") (py "e"); R_out "out1"]
       <= total_bytes out
    /\ total_bytes out
       <= total_bytes
            [R_out "out2"; mkJobRunResult (py "o") (py "e"); R_out "out1"]
          + 2 * (len
                   [R_out "out2"; mkJobRunResult (py "o") (py "e");
                    R_out "out1"]
                 - len out).
Proof.
  apply accumulate_total_bytes. prove_all_valid.
Defined.

(** ** The ceiling is reached by untouched records only *)

Lemma loop_inv_strict_batches (st : loop_state) :
  loop_inv_strict st -> Forall below_or_single (batches st).
Proof.
  intros (closed & running & -> & Hclosed & Hsize & Hlast).
  apply Forall_app. split; [exact Hclosed |].
  constructor; [| constructor].
  destruct Hlast as [Hlt | Hsingle]; [left; lia | right; exact Hsingle].
Qed.

Lemma loop_body_strict (st : loop_state) (it : item) :
  loop_inv_strict st ->
  item_size it = len_in_bytes (item_result it) ->
  exists st', loop_body st it = Ok st' /\ loop_inv_strict st'.
Proof.
  intros Hinv Hit. pose proof (loop_inv_strict_batches st Hinv) as Hall.
  destruct Hinv as (closed & running & Hb & Hclosed & Hsize & Hlast).
  destruct it as [[size i] r]. unfold item_size, item_result in Hit.
  simpl in Hit.
  destruct (Z.lt_ge_cases (latest_batch_size st + padding r + size)
              MAX_OUTPUT_BYTES) as [Hlt | Hge].
  - rewrite loop_body_append by exact Hlt.
    rewrite Hb, append_to_last_snoc. simpl.
    eexists. split; [reflexivity |].
    exists closed, (running ++ [r]). simpl.
    split; [reflexivity |]. split; [exact Hclosed |].
    pose proof (merged_snoc running r).
    pose proof (delimiters_needed_le_padding running r).
    split; [lia | left; lia].
  - rewrite loop_body_new_batch by exact Hge.
    eexists. split; [reflexivity |].
    exists (batches st), [r]. simpl.
    split; [reflexivity |]. split; [exact Hall |].
    rewrite merged_single.
    split; [lia | right; exists r; reflexivity].
Qed.

Lemma while_heap_strict (h : heap) (st : loop_state) :
  loop_inv_strict st ->
  Forall (fun it => item_size it = len_in_bytes (item_result it)) h ->
  exists st', while_heap h st = Ok st' /\ loop_inv_strict st'.
Proof.
  revert st. induction h as [| it h IH]; intros st Hinv Hall; simpl.
  - exists st. auto.
  - inversion Hall as [| ? ? Hit Hall']; subst.
    destruct (loop_body_strict st it Hinv Hit) as (st1 & -> & Hinv1).
    simpl. apply IH; assumption.
Qed.

Lemma batch_heap_strict (h : heap) (bs : list (list JobRunResult)) :
  Forall (fun it => item_size it = len_in_bytes (item_result it)) h ->
  batch_heap h = Ok bs -> Forall below_or_single bs.
Proof.
  intros Hall Hbs. destruct h as [| [[size i] r] h]; [discriminate Hbs |].
  inversion Hall as [| ? ? Hfirst Hall']; subst.
  unfold item_size, item_result in Hfirst. simpl in Hfirst.
  unfold batch_heap in Hbs. rewrite heappop_cons in Hbs. simpl bind in Hbs.
  destruct (while_heap_strict h (mkState [[r]] size)) as (st & Hst & Hinv).
  - exists [], [r]. simpl. split; [reflexivity |]. split; [constructor |].
    rewrite merged_single. split; [lia | right; exists r; reflexivity].
  - exact Hall'.
  - rewrite Hst in Hbs. simpl in Hbs. injection Hbs as <-.
    apply loop_inv_strict_batches, Hinv.
Qed.

(** X7.  The docstring promises results below the ceiling; the code keeps
    that for every merged record: each record of the output is strictly
    below [MAX_OUTPUT_BYTES] or is a record of the input handed back as it
    came. *)
Theorem accumulate_below_ceiling_or_untouched (results : list JobRunResult) :
  Forall valid results ->
  exists out,
    accumulate results = Ok out
    /\ Forall (fun r => len_in_bytes r < MAX_OUTPUT_BYTES \/ In r results) out.
Proof.
  intros H. destruct results as [| r0 results].
  - exists []. split; [reflexivity | constructor].
  - pose proof (push_all_ok _ H) as Hitems.
    destruct (batch_heap_ok (push_all (r0 :: results))
                (push_all_nonempty r0 results) Hitems)
      as (bs & Hbs & Hok & Hc).
    exists (map merged bs). split.
    + unfold accumulate, accumulate_from. rewrite Hbs. simpl bind.
      apply mapM_Ok. eapply Forall_impl; [| exact Hok].
      intros b. apply merge_batch_ok.
    + assert (Forall below_or_single bs) as Hstrict.
      { eapply batch_heap_strict; [| exact Hbs].
        eapply Forall_impl; [| exact Hitems]. intros it [Hsize _]. exact Hsize. }
      apply Forall_map. apply Forall_forall. intros b Hb.
      rewrite Forall_forall in Hstrict.
      destruct (Hstrict b Hb) as [Hlt | [r ->]]; [left; exact Hlt | right].
      rewrite merged_single.
      eapply Permutation_in; [apply push_all_results |].
      rewrite <- Hc. apply in_concat. exists [r]. split; [exact Hb | left; reflexivity].
Qed.

Lemma accumulate_below_ceiling_or_untouched_witness :
  exists out,
    accumulate [R_bytes 1500; R_bytes 700; R_err_bytes 700] = Ok out
    /\ Forall (fun r => len_in_bytes r < MAX_OUTPUT_BYTES
                        \/ In r [R_bytes 1500; R_bytes 700; R_err_bytes 700])
         out.
Proof.
  apply accumulate_below_ceiling_or_untouched. prove_all_valid.
Defined.

(** ** The factories and [accumulate] together *)

Lemma push_all_two (a b : JobRunResult) :
  push_all [a; b] =
  if item_ltb (len_in_bytes b, 1, b) (len_in_bytes a, 0, a)
  then [(len_in_bytes b, 1, b); (len_in_bytes a, 0, a)]
  else [(len_in_bytes a, 0, a); (len_in_bytes b, 1, b)].
Proof. reflexivity. Qed.

Lemma accumulate_from_two (s1 i1 s2 i2 : Z) (a b : JobRunResult) :
  s1 + padding b + s2 < MAX_OUTPUT_BYTES ->
  accumulate_from [(s1, i1, a); (s2, i2, b)]
  = (r <- merge_batch [a; b] ;; ret [r]).
Proof.
  intros Hlt. unfold accumulate_from, batch_heap. rewrite heappop_cons.
  cbn [bind ret while_heap].
  rewrite loop_body_append by (cbn [latest_batch_size]; exact Hlt).
  reflexivity.
Qed.

Lemma merged_out_err (o e : str) :
  truthy o = true -> truthy e = true ->
  merged [mkJobRunResult o []; mkJobRunResult [] e] = mkJobRunResult o e
  /\ merged [mkJobRunResult [] e; mkJobRunResult o []] = mkJobRunResult o e.
Proof.
  intros Ho He. unfold merged. simpl. rewrite Ho, He. split; reflexivity.
Qed.

(** X8.  A record made by [as_stdout] and one made by [as_stderr] whose
    sizes and one delimiter byte stay below the ceiling are merged, in
    either order of the input, into the single record that carries the
    stdout of the first and the stderr of the second. *)
Theorem accumulate_stdout_stderr_pair (value_out value_err : pyobject)
  (repr_out repr_err : bool) (r1 r2 : JobRunResult) :
  as_stdout value_out repr_out = Ok r1 ->
  as_stderr value_err repr_err = Ok r2 ->
  len_in_bytes r1 + 1 + len_in_bytes r2 < MAX_OUTPUT_BYTES ->
  accumulate [r1; r2] = Ok [mkJobRunResult (stdout r1) (stderr r2)]
  /\ accumulate [r2; r1] = Ok [mkJobRunResult (stdout r1) (stderr r2)].
Proof.
  unfold as_stdout, as_stderr. cbv zeta.
  set (o := format_value repr_out value_out).
  set (e := format_value repr_err value_err).
  intros H1 H2 Hlen.
  apply init_Ok_inv in H1, H2.
  destruct H1 as (-> & [Ho | Ho] & _); [| discriminate Ho].
  destruct H2 as (-> & [He | He] & _); [discriminate He |].
  cbn [stdout stderr].
  assert (padding (mkJobRunResult o []) = 1) as Hp1
    by (unfold padding; cbn [stdout stderr]; rewrite Ho; reflexivity).
  assert (padding (mkJobRunResult [] e) = 1) as Hp2
    by (unfold padding; cbn [stdout stderr]; rewrite He; reflexivity).
  destruct (merged_out_err o e Ho He) as [Hm1 Hm2].
  assert (__init__ o e = Ok (mkJobRunResult o e)) as Hinit.
  { apply init_Ok; [left; exact Ho |].
    rewrite !len_in_bytes_eq in Hlen. rewrite len_in_bytes_eq.
    cbn [stdout stderr] in *. rewrite !byte_len_nil in Hlen. lia. }
  unfold accumulate. rewrite !push_all_two.
  split;
    match goal with
    | |- context [item_ltb ?x ?y] => destruct (item_ltb x y)
    end;
    rewrite accumulate_from_two by (rewrite ?Hp1, ?Hp2; lia);
    rewrite merge_batch_merged, ?Hm1, ?Hm2; cbn [stdout stderr];
    rewrite Hinit; reflexivity.
Qed.

Lemma accumulate_stdout_stderr_pair_witness :
  accumulate [R_out "None"; R_err "''"]
  = Ok [mkJobRunResult (py "None") (py "''")].
Proof.
  refine (proj1 (accumulate_stdout_stderr_pair none_object empty_str_object
                   false true (R_out "None") (R_err "''") _ _ _)).
  - reflexivity.
  - reflexivity.
  - vm_compute. reflexivity.
Defined.

(** * Properties of the task identifiers *)

Lemma py_cons (c : ascii) (s : string) :
  py (String c s) = N_of_ascii c :: py s.
Proof. reflexivity. Qed.

Lemma py_inj (s t : string) : py s = py t -> s = t.
Proof.
  revert t. induction s as [| c s IH]; intros [| d t] H;
    try reflexivity; try discriminate H.
  rewrite !py_cons in H. injection H as Hc Hs.
  f_equal; [| apply IH, Hs].
  rewrite <- (ascii_N_embedding c), <- (ascii_N_embedding d), Hc. reflexivity.
Qed.

Lemma string_of_uint_no_dot (d : Decimal.uint) :
  ~ In dot (py (NilEmpty.string_of_uint d)).
Proof.
  induction d; simpl NilEmpty.string_of_uint; [intros [] | ..];
    rewrite py_cons; intros [H | H];
    solve [discriminate H | apply IHd, H].
Qed.

Lemma format_d_no_dot (n : Z) : ~ In dot (format_d n).
Proof.
  unfold format_d. destruct (Z.to_int n) as [d | d];
    simpl NilEmpty.string_of_int.
  - apply string_of_uint_no_dot.
  - rewrite py_cons. intros [H | H]; [discriminate H |].
    exact (string_of_uint_no_dot d H).
Qed.

Lemma format_d_inj (n m : Z) : format_d n = format_d m -> n = m.
Proof.
  unfold format_d. intros H. apply py_inj in H.
  apply DecimalZ.to_int_inj.
  assert (Some (Z.to_int n) = Some (Z.to_int m)) as Hs
    by (rewrite <- !NilEmpty.isi, H; reflexivity).
  injection Hs as Hs. exact Hs.
Qed.

Lemma join_split (c : codepoint) (s : str) : join [c] (split c s) = s.
Proof.
  induction s as [| x s IH]; [reflexivity |].
  simpl split. destruct (N.eqb_spec x c) as [-> | Hx].
  - destruct (split c s) as [| p ps] eqn:E.
    + destruct s; simpl in E; [discriminate E |].
      destruct (N.eqb c0 c); [discriminate E |].
      destruct (split c s); discriminate E.
    + change (join [c] ([] :: p :: ps)) with ([] ++ [c] ++ join [c] (p :: ps)).
      rewrite IH. reflexivity.
  - destruct (split c s) as [| p ps] eqn:E.
    + destruct s; simpl in E; [discriminate E |].
      destruct (N.eqb c0 c); [discriminate E |].
      destruct (split c s); discriminate E.
    + destruct ps as [| q qs].
      * simpl in IH. simpl. congruence.
      * change (join [c] ((x :: p) :: q :: qs))
          with (x :: (p ++ [c] ++ join [c] (q :: qs))).
        change (join [c] (p :: q :: qs))
          with (p ++ [c] ++ join [c] (q :: qs)) in IH.
        rewrite IH. reflexivity.
Qed.

Lemma split_inj (c : codepoint) (s t : str) :
  split c s = split c t -> s = t.
Proof.
  intros H. rewrite <- (join_split c s), <- (join_split c t), H. reflexivity.
Qed.

Lemma generate_task_id_join (entity_type entity_id : str) (entity_version : Z)
  (task_type target_type target_id : str) :
  generate_task_id entity_type entity_id entity_version task_type target_type
    target_id
  = join [dot] [entity_type; entity_id; format_d entity_version; task_type;
                target_type; target_id].
Proof. reflexivity. Qed.

Lemma generate_task_id_split (entity_type entity_id : str)
  (entity_version : Z) (task_type target_type target_id : str) :
  ~ In dot entity_type -> ~ In dot entity_id ->
  ~ In dot task_type -> ~ In dot target_type ->
  split dot
    (generate_task_id entity_type entity_id entity_version task_type
       target_type target_id)
  = entity_type :: entity_id :: format_d entity_version :: task_type
    :: target_type :: split dot target_id.
Proof.
  intros H1 H2 H3 H4. unfold generate_task_id.
  pose proof (format_d_no_dot entity_version) as Hd.
  change [dot] with (dot :: []). simpl app.
  repeat (rewrite split_app_sep by assumption). reflexivity.
Qed.

(** X11.  When none of the five text fields holds a dot, splitting a task
    identifier on the dots gives back the six fields, the version in
    decimal. *)
Theorem task_id_fields (entity_type entity_id : str) (entity_version : Z)
  (task_type target_type target_id : str) :
  ~ In dot entity_type -> ~ In dot entity_id ->
  ~ In dot task_type -> ~ In dot target_type -> ~ In dot target_id ->
  split dot
    (generate_task_id entity_type entity_id entity_version task_type
       target_type target_id)
  = [entity_type; entity_id; format_d entity_version; task_type;
     target_type; target_id].
Proof.
  intros H1 H2 H3 H4 H5.
  rewrite generate_task_id_split by assumption.
  rewrite (split_no_sep dot target_id H5). reflexivity.
Qed.

Lemma task_id_fields_witness :
  split dot
    (generate_task_id (py "exploration") (py "eid") 12
       (py "high_bounce_rate") (py "state") (py "Introduction"))
  = [py "exploration"; py "eid"; py "12"; py "high_bounce_rate";
     py "state"; py "Introduction"].
Proof.
  apply (task_id_fields (py "exploration") (py "eid") 12
           (py "high_bounce_rate") (py "state") (py "Introduction"));
    vm_compute; intros H;
    repeat (destruct H as [H | H]; [discriminate H |]); exact H.
Defined.

(** X12.  Task identifiers do not collide: when the entity type, the
    entity id, the task type and the target type hold no dot, two task
    identifiers are equal only if all six fields are equal; the target id
    may hold dots. *)
Theorem task_id_injective (entity_type entity_type' entity_id entity_id' : str)
  (entity_version entity_version' : Z)
  (task_type task_type' target_type target_type' target_id target_id' : str) :
  ~ In dot entity_type -> ~ In dot entity_id ->
  ~ In dot task_type -> ~ In dot target_type ->
  ~ In dot entity_type' -> ~ In dot entity_id' ->
  ~ In dot task_type' -> ~ In dot target_type' ->
  generate_task_id entity_type entity_id entity_version task_type target_type
    target_id
  = generate_task_id entity_type' entity_id' entity_version' task_type'
      target_type' target_id' ->
  entity_type = entity_type' /\ entity_id = entity_id'
  /\ entity_version = entity_version' /\ task_type = task_type'
  /\ target_type = target_type' /\ target_id = target_id'.
Proof.
  intros H1 H2 H3 H4 H1' H2' H3' H4' Heq.
  apply (f_equal (split dot)) in Heq.
  rewrite !generate_task_id_split in Heq by assumption.
  injection Heq as E1 E2 E3 E4 E5 E6.
  apply format_d_inj in E3. apply split_inj in E6.
  repeat split; assumption.
Qed.

Lemma task_id_injective_witness :
  generate_task_id (py "exploration") (py "eid") 1 (py "high_bounce_rate")
    (py "state") (py "End. Card")
  = generate_task_id (py "exploration") (py "eid") 1 (py "high_bounce_rate")
      (py "state") (py "End. Card")
  /\ (1 = 1 /\ py "End. Card" = py "End. Card").
Proof.
  split; [reflexivity |].
  assert (forall s : string,
             existsb (N.eqb dot) (py s) = false -> ~ In dot (py s)) as Hd.
  { intros s Hs Hin.
    assert (existsb (N.eqb dot) (py s) = true) as Ht
      by (apply existsb_exists; exists dot; split; [exact Hin | apply N.eqb_refl]).
    congruence. }
  destruct (task_id_injective (py "exploration") (py "exploration")
              (py "eid") (py "eid") 1 1
              (py "high_bounce_rate") (py "high_bounce_rate")
              (py "state") (py "state") (py "End. Card") (py "End. Card"))
    as (_ & _ & Hv & _ & _ & Ht);
    try (apply Hd; reflexivity); [reflexivity |].
  split; [exact Hv | exact Ht].
Defined.

(** X13.  A task identifier is the composite entity id of its entity
    followed by a dot and the three task fields, and for an entity type and
    an entity id without dots the composite entity id determines the entity
    type, the entity id and the version. *)
Theorem composite_entity_id_prefix (entity_type entity_type' entity_id
  entity_id' : str) (entity_version entity_version' : Z)
  (task_type target_type target_id : str) :
  ~ In dot entity_type -> ~ In dot entity_id ->
  ~ In dot entity_type' -> ~ In dot entity_id' ->
  generate_task_id entity_type entity_id entity_version task_type target_type
    target_id
  = generate_composite_entity_id entity_type entity_id entity_version
    ++ [dot] ++ task_type ++ [dot] ++ target_type ++ [dot] ++ target_id
  /\ (generate_composite_entity_id entity_type entity_id entity_version
      = generate_composite_entity_id entity_type' entity_id' entity_version'
      <-> entity_type = entity_type' /\ entity_id = entity_id'
          /\ entity_version = entity_version').
Proof.
  intros H1 H2 H1' H2'. split.
  - unfold generate_task_id, generate_composite_entity_id.
    rewrite <- !app_assoc. reflexivity.
  - split.
    + intros Heq. apply (f_equal (split dot)) in Heq.
      unfold generate_composite_entity_id in Heq.
      change [dot] with (dot :: []) in Heq. simpl app in Heq.
      rewrite !split_app_sep in Heq by assumption.
      rewrite !(split_no_sep dot (format_d _)) in Heq
        by apply format_d_no_dot.
      injection Heq as E1 E2 E3. apply format_d_inj in E3. auto.
    + intros (-> & -> & ->). reflexivity.
Qed.

Lemma composite_entity_id_prefix_witness :
  generate_task_id (py "exploration") (py "eid") 3 (py "high_bounce_rate")
    (py "state") (py "Intro")
  = generate_composite_entity_id (py "exploration") (py "eid") 3
    ++ [dot] ++ py "high_bounce_rate" ++ [dot] ++ py "state" ++ [dot]
    ++ py "Intro".
Proof.
  refine (proj1 (composite_entity_id_prefix (py "exploration")
                   (py "exploration") (py "eid") (py "eid") 3 3
                   (py "high_bounce_rate") (py "state") (py "Intro")
                   _ _ _ _));
    vm_compute; intros H;
    repeat (destruct H as [H | H]; [discriminate H |]); exact H.
Defined.

(** * The order of the input *)

Lemma loop_body_payload (st : loop_state) (it it' : item) :
  item_payload it = item_payload it' -> loop_body st it = loop_body st it'.
Proof.
  destruct it as [[s i] r], it' as [[s' i'] r'].
  unfold item_payload, item_size, item_result. cbn [fst snd].
  intros H. injection H as Hs Hr. subst s' r'. reflexivity.
Qed.

Lemma while_heap_payload (h h' : heap) (st : loop_state) :
  map item_payload h = map item_payload h' ->
  while_heap h st = while_heap h' st.
Proof.
  revert h' st. induction h as [| it h IH]; intros [| it' h'] st H;
    try reflexivity; try discriminate H.
  cbn [map] in H.
  assert (item_payload it = item_payload it') as Hit by congruence.
  assert (map item_payload h = map item_payload h') as Hh by congruence.
  simpl. rewrite (loop_body_payload st it it' Hit).
  destruct (loop_body st it') as [st' | ex]; simpl; [apply IH, Hh | reflexivity].
Qed.

Lemma accumulate_from_payload (h h' : heap) :
  map item_payload h = map item_payload h' ->
  accumulate_from h = accumulate_from h'.
Proof.
  destruct h as [| [[s i] r] h], h' as [| [[s' i'] r'] h']; intros H;
    try reflexivity; try discriminate H.
  cbn [map] in H.
  assert (map item_payload h = map item_payload h') as Hh by congruence.
  assert (item_payload (s, i, r) = item_payload (s', i', r')) as Hit
    by congruence.
  unfold item_payload, item_size, item_result in Hit. cbn [fst snd] in Hit.
  injection Hit as Hs Hr. subst s' r'.
  unfold accumulate_from, batch_heap. rewrite !heappop_cons. simpl bind.
  rewrite (while_heap_payload h h' _ Hh). reflexivity.
Qed.

Lemma payload_enumerate_from (start : Z) (results : list JobRunResult) :
  map item_payload
    (map (fun '(i, result) => (len_in_bytes result, i, result))
       (enumerate_from start results))
  = map (fun r => (len_in_bytes r, r)) results.
Proof.
  revert start. induction results as [| r results IH]; intros start; simpl.
  - reflexivity.
  - rewrite IH. reflexivity.
Qed.

Lemma payload_heap_items (results : list JobRunResult) :
  map item_payload (heap_items results)
  = map (fun r => (len_in_bytes r, r)) results.
Proof. apply payload_enumerate_from. Qed.

Lemma payload_sorted (h : heap) :
  StronglySorted item_le h -> NoDup (map item_size h) ->
  StronglySorted (fun a b : Z * JobRunResult => fst a < fst b)
    (map item_payload h).
Proof.
  induction 1 as [| a h Hs IH Hall]; intros Hnd; simpl; [constructor |].
  simpl in Hnd. inversion Hnd as [| ? ? Hnotin Hnd']; subst.
  constructor; [apply IH, Hnd' |].
  apply Forall_map, Forall_forall. intros b Hb.
  rewrite Forall_forall in Hall. specialize (Hall b Hb).
  apply item_le_iff in Hall. simpl.
  assert (item_size a <> item_size b).
  { intros Heq. apply Hnotin. rewrite Heq. apply in_map, Hb. }
  lia.
Qed.

Lemma strictly_sorted_unique {A : Type} (lt : A -> A -> Prop)
  (l1 l2 : list A) :
  (forall a b, lt a b -> lt b a -> False) ->
  Permutation l1 l2 ->
  StronglySorted lt l1 -> StronglySorted lt l2 -> l1 = l2.
Proof.
  intros Hasym. revert l2. induction l1 as [| a l1 IH]; intros l2 Hp H1 H2.
  - apply Permutation_nil in Hp. congruence.
  - destruct l2 as [| b l2].
    + apply Permutation_sym, Permutation_nil in Hp. discriminate.
    + inversion H1 as [| ? ? H1' Ha]; subst.
      inversion H2 as [| ? ? H2' Hb]; subst.
      assert (a = b) as ->.
      { assert (In a (b :: l2)) as [-> | Hin1]
          by (eapply Permutation_in; [exact Hp | left; reflexivity]);
          [reflexivity |].
        assert (In b (a :: l1)) as [-> | Hin2]
          by (eapply Permutation_in;
              [apply Permutation_sym, Hp | left; reflexivity]);
          [reflexivity |].
        rewrite Forall_forall in Ha, Hb.
        exfalso. eapply Hasym; [apply Ha, Hin2 | apply Hb, Hin1]. }
      f_equal. apply IH; [| assumption | assumption].
      eapply Permutation_cons_inv, Hp.
Qed.

Lemma push_all_payload_sorted (results : list JobRunResult) :
  NoDup (map len_in_bytes results) ->
  StronglySorted (fun a b : Z * JobRunResult => fst a < fst b)
    (map item_payload (push_all results)).
Proof.
  intros Hnd. destruct (push_all_pop_order results) as [Hp Hs].
  apply payload_sorted; [exact Hs |].
  eapply Permutation_NoDup;
    [apply Permutation_map, Permutation_sym, Hp |].
  replace (map item_size (heap_items results))
    with (map fst (map item_payload (heap_items results)))
    by (rewrite map_map; reflexivity).
  rewrite payload_heap_items, map_map. simpl. exact Hnd.
Qed.

(** X14.  The order of the input matters among records of equal size only:
    when the sizes of the records are pairwise different, [accumulate] gives
    the same outcome for every rearrangement of the input. *)
Theorem accumulate_permutation (results results' : list JobRunResult) :
  Permutation results results' ->
  NoDup (map len_in_bytes results) ->
  accumulate results = accumulate results'.
Proof.
  intros Hp Hnd.
  assert (NoDup (map len_in_bytes results')) as Hnd'
    by (eapply Permutation_NoDup; [apply Permutation_map, Hp | exact Hnd]).
  assert (map item_payload (push_all results)
          = map item_payload (push_all results')) as Heq.
  { apply (strictly_sorted_unique
             (fun a b : Z * JobRunResult => fst a < fst b)).
    - intros a b. lia.
    - eapply Permutation_trans;
        [apply Permutation_map, push_all_pop_order |].
      eapply Permutation_trans;
        [| apply Permutation_map, Permutation_sym, push_all_pop_order].
      rewrite !payload_heap_items. apply Permutation_map, Hp.
    - apply push_all_payload_sorted, Hnd.
    - apply push_all_payload_sorted, Hnd'. }
  destruct results as [| r results], results' as [| r' results'].
  - reflexivity.
  - apply Permutation_nil in Hp. discriminate Hp.
  - apply Permutation_sym, Permutation_nil in Hp. discriminate Hp.
  - unfold accumulate. apply accumulate_from_payload, Heq.
Qed.

Lemma accumulate_permutation_witness :
  accumulate [R_out "ccc"; R_err "a"; R_out "bb"]
  = accumulate [R_out "bb"; R_out "ccc"; R_err "a"].
Proof.
  apply accumulate_permutation.
  - apply Permutation_sym.
    apply (Permutation_middle [R_out "ccc"; R_err "a"] [] (R_out "bb")).
  - vm_compute. repeat constructor; simpl; intuition discriminate.
Defined.

(** Among records of equal size the order of the input shows in the
    output. *)
Example accumulate_order_of_ties :
  accumulate [R_out "a"; R_out "b"] = Ok [mkJobRunResult (py "a" ++ nl ++ py "b") []]
  /\ accumulate [R_out "b"; R_out "a"] = Ok [mkJobRunResult (py "b" ++ nl ++ py "a") []].
Proof. split; reflexivity. Qed.

(** * The rule and the order, read off the result of [accumulate] *)

Lemma tracked_size_single (r : JobRunResult) :
  tracked_size [r] = len_in_bytes r.
Proof. reflexivity. Qed.

Lemma tracked_size_snoc (batch : list JobRunResult) (r : JobRunResult) :
  batch <> [] ->
  tracked_size (batch ++ [r])
  = tracked_size batch + (padding r + len_in_bytes r).
Proof.
  destruct batch as [| first rest]; intros Hne; [congruence |].
  simpl. rewrite fold_left_app. reflexivity.
Qed.

Lemma snoc_split {A : Type} (before after l : list A) (r x : A) :
  before ++ r :: after = l ++ [x] ->
  (after = [] /\ before = l /\ r = x)
  \/ exists after', after = after' ++ [x] /\ l = before ++ r :: after'.
Proof.
  intros H. destruct after as [| y after'] using rev_ind.
  - left. apply (app_inj_tail before l r x) in H. destruct H. auto.
  - right. exists after'. clear IHafter'.
    change (before ++ r :: after' ++ [y])
      with (before ++ (r :: after') ++ [y]) in H.
    rewrite app_assoc in H. apply app_inj_tail in H.
    destruct H as [<- ->]. auto.
Qed.

Lemma admitted_single (r : JobRunResult) : admitted [r].
Proof.
  intros before r' after H Hne. exfalso.
  apply (f_equal (@length _)) in H. rewrite length_app in H. simpl in H.
  destruct before; [congruence | simpl in H; lia].
Qed.

Lemma admitted_snoc (batch : list JobRunResult) (x : JobRunResult) :
  admitted batch ->
  tracked_size batch + padding x + len_in_bytes x < MAX_OUTPUT_BYTES ->
  admitted (batch ++ [x]).
Proof.
  intros Hadm Hlt before r after H Hne. symmetry in H.
  apply snoc_split in H.
  destruct H as [(_ & -> & ->) | (after' & _ & ->)].
  - exact Hlt.
  - eapply Hadm; [reflexivity | exact Hne].
Qed.

Lemma refused_single (batch : list JobRunResult) : refused [batch].
Proof.
  intros bs1 b r after bs2 H. exfalso.
  apply (f_equal (@length _)) in H. rewrite length_app in H. simpl in H. lia.
Qed.

Lemma refused_append (closed : list (list JobRunResult))
  (running : list JobRunResult) (x : JobRunResult) :
  running <> [] ->
  refused (closed ++ [running]) ->
  refused (closed ++ [running ++ [x]]).
Proof.
  intros Hne Href bs1 b r after bs2 H.
  symmetry in H.
  change (bs1 ++ b :: (r :: after) :: bs2)
    with (bs1 ++ [b] ++ (r :: after) :: bs2) in H.
  rewrite app_assoc in H. apply snoc_split in H.
  destruct H as [(-> & <- & Hrun) | (bs2' & -> & ->)].
  - destruct running as [| r0 q0]; [congruence |].
    simpl in Hrun. injection Hrun as -> _.
    apply (Href bs1 b r0 q0 []). rewrite <- app_assoc. reflexivity.
  - apply (Href bs1 b r after (bs2' ++ [running])).
    rewrite <- !app_assoc. reflexivity.
Qed.

Lemma refused_open (bs : list (list JobRunResult))
  (running : list JobRunResult) (x : JobRunResult) :
  refused (bs ++ [running]) ->
  MAX_OUTPUT_BYTES <= tracked_size running + padding x + len_in_bytes x ->
  refused ((bs ++ [running]) ++ [[x]]).
Proof.
  intros Href Hge bs1 b r after bs2 H.
  symmetry in H.
  change (bs1 ++ b :: (r :: after) :: bs2)
    with (bs1 ++ [b] ++ (r :: after) :: bs2) in H.
  rewrite app_assoc in H. apply snoc_split in H.
  destruct H as [(_ & Hb & Hx) | (bs2' & _ & Hold)].
  - apply app_inj_tail in Hb. destruct Hb as [_ ->].
    injection Hx as -> _. exact Hge.
  - apply (Href bs1 b r after bs2'). rewrite Hold, <- app_assoc. reflexivity.
Qed.

Lemma loop_inv_threshold_batches (st : loop_state) :
  loop_inv_threshold st ->
  Forall (fun b => b <> []) (batches st)
  /\ Forall admitted (batches st)
  /\ refused (batches st).
Proof.
  intros (closed & running & -> & Hne & _ & Hclosed & Hadm & Href).
  split; [| split; assumption].
  apply Forall_app. split; [exact Hclosed | constructor; [exact Hne | constructor]].
Qed.

Lemma loop_body_threshold_inv (st : loop_state) (it : item) :
  loop_inv_threshold st ->
  item_size it = len_in_bytes (item_result it) ->
  exists st', loop_body st it = Ok st' /\ loop_inv_threshold st'.
Proof.
  intros Hinv Hit.
  destruct (loop_inv_threshold_batches st Hinv) as (Hall & _ & _).
  destruct Hinv as (closed & running & Hb & Hne & Hsize & Hclosed & Hadm & Href).
  destruct it as [[size i] r]. unfold item_size, item_result in Hit.
  simpl in Hit. subst size.
  destruct (Z.lt_ge_cases
              (latest_batch_size st + padding r + len_in_bytes r)
              MAX_OUTPUT_BYTES) as [Hlt | Hge].
  - rewrite loop_body_append by exact Hlt.
    rewrite Hb, append_to_last_snoc. simpl.
    eexists. split; [reflexivity |].
    exists closed, (running ++ [r]). simpl.
    split; [reflexivity |].
    split; [intros H; apply app_eq_nil in H; destruct H; discriminate |].
    split; [rewrite tracked_size_snoc by exact Hne; lia |].
    split; [exact Hclosed |].
    apply Forall_app in Hadm. destruct Hadm as [Hadm Hrun].
    inversion Hrun as [| ? ? Hrun' _]; subst.
    split; [| apply refused_append; assumption].
    apply Forall_app. split; [exact Hadm |].
    constructor; [| constructor].
    apply admitted_snoc; [exact Hrun' | lia].
  - rewrite loop_body_new_batch by exact Hge.
    eexists. split; [reflexivity |].
    exists (batches st), [r]. simpl.
    split; [reflexivity |]. split; [discriminate |].
    split; [reflexivity |]. split; [exact Hall |].
    rewrite Hb. split.
    + apply Forall_app. split; [exact Hadm |].
      constructor; [apply admitted_single | constructor].
    + apply refused_open; [exact Href | lia].
Qed.

Lemma while_heap_threshold_inv (h : heap) (st : loop_state) :
  loop_inv_threshold st ->
  Forall (fun it => item_size it = len_in_bytes (item_result it)) h ->
  exists st', while_heap h st = Ok st' /\ loop_inv_threshold st'.
Proof.
  revert st. induction h as [| it h IH]; intros st Hinv Hall; simpl.
  - exists st. auto.
  - inversion Hall as [| ? ? Hit Hall']; subst.
    destruct (loop_body_threshold_inv st it Hinv Hit) as (st1 & -> & Hinv1).
    simpl. apply IH; assumption.
Qed.

Lemma batch_heap_threshold (h : heap) (bs : list (list JobRunResult)) :
  Forall (fun it => item_size it = len_in_bytes (item_result it)) h ->
  batch_heap h = Ok bs ->
  Forall (fun b => b <> []) bs /\ Forall admitted bs /\ refused bs.
Proof.
  intros Hall Hbs. destruct h as [| [[size i] r] h]; [discriminate Hbs |].
  inversion Hall as [| ? ? Hfirst Hall']; subst.
  unfold item_size, item_result in Hfirst. simpl in Hfirst. subst size.
  unfold batch_heap in Hbs. rewrite heappop_cons in Hbs. simpl bind in Hbs.
  destruct (while_heap_threshold_inv h (mkState [[r]] (len_in_bytes r)))
    as (st & Hst & Hinv).
  - exists [], [r]. simpl. split; [reflexivity |]. split; [discriminate |].
    split; [reflexivity |]. split; [constructor |].
    split; [constructor; [apply admitted_single | constructor] |].
    apply refused_single.
  - exact Hall'.
  - rewrite Hst in Hbs. simpl in Hbs. injection Hbs as <-.
    apply loop_inv_threshold_batches, Hinv.
Qed.

Lemma push_all_sizes (results : list JobRunResult) :
  Forall (fun it => item_size it = len_in_bytes (item_result it))
    (push_all results).
Proof.
  eapply Permutation_Forall;
    [apply Permutation_sym, push_all_pop_order |].
  eapply Forall_impl; [| apply heap_items_keys].
  intros it (H & _). exact H.
Qed.

(** The batches behind [accumulate], with all that is known of them. *)
Lemma accumulate_batches (results : list JobRunResult) :
  exists bs,
    accumulate results = mapM merge_batch bs
    /\ (Forall valid results -> accumulate results = Ok (map merged bs))
    /\ concat bs = map item_result (push_all results)
    /\ Forall (fun b => b <> []) bs
    /\ Forall admitted bs
    /\ refused bs.
Proof.
  destruct results as [| r0 results].
  - exists []. repeat split; try constructor.
    intros bs1 b r after bs2 H. destruct bs1; discriminate H.
  - destruct (batch_heap_concat (push_all (r0 :: results))
                (push_all_nonempty r0 results)) as (bs & Hbs & Hc).
    destruct (batch_heap_threshold _ bs (push_all_sizes _) Hbs)
      as (Hne & Hadm & Href).
    exists bs.
    assert (accumulate (r0 :: results) = mapM merge_batch bs) as Hacc
      by (unfold accumulate, accumulate_from; rewrite Hbs; reflexivity).
    split; [exact Hacc |].
    split; [| repeat split; assumption].
    intros Hvalid. rewrite Hacc.
    destruct (batch_heap_ok (push_all (r0 :: results))
                (push_all_nonempty r0 results) (push_all_ok _ Hvalid))
      as (bs' & Hbs' & Hok & _).
    rewrite Hbs in Hbs'. injection Hbs' as <-.
    apply mapM_Ok. eapply Forall_impl; [| exact Hok].
    intros b. apply merge_batch_ok.
Qed.

Lemma accumulate_from_two_open (s1 i1 s2 i2 : Z) (a b : JobRunResult) :
  MAX_OUTPUT_BYTES <= s1 + padding b + s2 ->
  accumulate_from [(s1, i1, a); (s2, i2, b)] = mapM merge_batch [[a]; [b]].
Proof.
  intros Hge. unfold accumulate_from, batch_heap. rewrite heappop_cons.
  cbn [bind ret while_heap].
  rewrite loop_body_new_batch by (cbn [latest_batch_size]; exact Hge).
  reflexivity.
Qed.

Lemma push_all_two_sorted (a b : JobRunResult) :
  len_in_bytes a <= len_in_bytes b ->
  push_all [a; b] = [(len_in_bytes a, 0, a); (len_in_bytes b, 1, b)].
Proof.
  intros Hle. rewrite push_all_two.
  destruct (item_ltb (len_in_bytes b, 1, b) (len_in_bytes a, 0, a)) eqn:Hlt;
    [| reflexivity].
  apply item_ltb_lt in Hlt. unfold item_lt, item_size, item_index in Hlt.
  simpl in Hlt. lia.
Qed.

Lemma accumulate_two (a b : JobRunResult) :
  valid a -> valid b -> len_in_bytes a <= len_in_bytes b ->
  (len_in_bytes a + padding b + len_in_bytes b < MAX_OUTPUT_BYTES ->
   accumulate [a; b] = Ok [merged [a; b]])
  /\ (MAX_OUTPUT_BYTES <= len_in_bytes a + padding b + len_in_bytes b ->
      accumulate [a; b] = Ok [a; b]).
Proof.
  intros Va Vb Hle. unfold accumulate.
  rewrite (push_all_two_sorted a b Hle). split.
  - intros Hlt. rewrite accumulate_from_two by exact Hlt.
    rewrite merge_batch_ok; [reflexivity |]. split.
    + exists a. split; [left; reflexivity | apply Va].
    + change [a; b] with ([a] ++ [b]). rewrite merged_snoc, merged_single.
      pose proof (delimiters_needed_le_padding [a] b). lia.
  - intros Hge. rewrite accumulate_from_two_open by exact Hge.
    cbn [mapM].
    rewrite !merge_batch_merged, !merged_single, !init_valid by assumption.
    reflexivity.
Qed.

(** C4 (threshold of the loop).  In the result of [accumulate] on valid
    records, taken in the order of the pops, every record after the first
    of a batch joined it because [latest_batch_size + padding + result_size]
    was strictly below [MAX_OUTPUT_BYTES], and every record that opens a
    later batch does so because that sum, for the batch before it, reached
    the ceiling; the size tracked for a new batch starts again at the size
    of its record.  So two records are merged exactly when the sum is below
    the ceiling, and two records of 800 bytes each come back as they are.
    In the loop itself the record is appended to the last batch and the size
    grows by [padding + result_size] in the first case, and a batch holding
    only that record is opened and the size reset to [result_size] in the
    second. *)
Theorem accumulate_threshold (results : list JobRunResult)
  (a b r1 r2 : JobRunResult) :
  Forall valid results ->
  valid a -> valid b -> len_in_bytes a <= len_in_bytes b ->
  len_in_bytes r1 = 800 ->
  len_in_bytes r2 = 800 ->
  (exists bs,
      accumulate results = Ok (map merged bs)
      /\ concat bs = map item_result (push_all results)
      /\ Forall (fun batch => batch <> []) bs
      /\ Forall admitted bs
      /\ refused bs)
  /\ (len_in_bytes a + padding b + len_in_bytes b < MAX_OUTPUT_BYTES ->
      accumulate [a; b] = Ok [merged [a; b]])
  /\ (MAX_OUTPUT_BYTES <= len_in_bytes a + padding b + len_in_bytes b ->
      accumulate [a; b] = Ok [a; b])
  /\ (forall st closed running size i r,
        batches st = closed ++ [running] ->
        (latest_batch_size st + padding r + size < MAX_OUTPUT_BYTES ->
         loop_body st (size, i, r)
         = Ok (mkState (closed ++ [running ++ [r]])
                 (latest_batch_size st + (padding r + size))))
        /\ (MAX_OUTPUT_BYTES <= latest_batch_size st + padding r + size ->
            loop_body st (size, i, r)
            = Ok (mkState (closed ++ [running] ++ [[r]]) size)))
  /\ accumulate [r1; r2] = Ok [r1; r2].
Proof.
  intros Hvalid Va Vb Hle H1 H2.
  split; [| split; [| split; [| split]]].
  - destruct (accumulate_batches results)
      as (bs & _ & Hok & Hc & Hne & Hadm & Href).
    exists bs. repeat split; auto.
  - apply accumulate_two; assumption.
  - apply accumulate_two; assumption.
  - intros st closed running size i r Hb. split.
    + intros Hlt. rewrite loop_body_append by exact Hlt.
      rewrite Hb, append_to_last_snoc. reflexivity.
    + intros Hge. rewrite loop_body_new_batch by exact Hge.
      rewrite Hb, <- app_assoc. reflexivity.
  - assert (valid r1) as V1
      by (apply (valid_of_len r1 800 H1); unfold MAX_OUTPUT_BYTES; lia).
    assert (valid r2) as V2
      by (apply (valid_of_len r2 800 H2); unfold MAX_OUTPUT_BYTES; lia).
    apply accumulate_two; try assumption; [lia |].
    pose proof (padding_bounds r2). unfold MAX_OUTPUT_BYTES. lia.
Qed.

Lemma accumulate_threshold_witness :
  accumulate [R_bytes 698; R_bytes 800]
  = Ok [merged [R_bytes 698; R_bytes 800]]
  /\ accumulate [R_bytes 699; R_bytes 800] = Ok [R_bytes 699; R_bytes 800]
  /\ accumulate [R_bytes 800; R_err_bytes 800]
     = Ok [R_bytes 800; R_err_bytes 800].
Proof.
  assert (Forall valid [R_out "a"; R_bytes 698; R_bytes 800]) as Hvalid
    by prove_all_valid.
  assert (valid (R_bytes 698)) as V698 by prove_valid.
  assert (valid (R_bytes 699)) as V699 by prove_valid.
  assert (valid (R_bytes 800)) as V800 by prove_valid.
  assert (len_in_bytes (R_bytes 800) = 800) as L800
    by (vm_compute; reflexivity).
  assert (len_in_bytes (R_err_bytes 800) = 800) as E800
    by (vm_compute; reflexivity).
  assert (len_in_bytes (R_bytes 698) <= len_in_bytes (R_bytes 800)) as Hle1
    by (vm_compute; discriminate).
  assert (len_in_bytes (R_bytes 699) <= len_in_bytes (R_bytes 800)) as Hle2
    by (vm_compute; discriminate).
  pose proof (accumulate_threshold _ (R_bytes 698) (R_bytes 800)
                (R_bytes 800) (R_err_bytes 800) Hvalid V698 V800 Hle1
                L800 E800) as (_ & Happend & _ & _ & H800).
  pose proof (accumulate_threshold _ (R_bytes 699) (R_bytes 800)
                (R_bytes 800) (R_err_bytes 800) Hvalid V699 V800 Hle2
                L800 E800) as (_ & _ & Hopen & _).
  split; [apply Happend; vm_compute; reflexivity |].
  split; [apply Hopen; vm_compute; discriminate | exact H800].
Defined.

(** C6 (order of consumption).  [accumulate] builds its batches from the
    items taken in strictly ascending order of (size, index), where the size
    is [len_in_bytes] of the record and the index its position in the input,
    so that records of equal size keep the order of the input; the records
    it returns are the merged batches of that order.  Three records of one
    byte each are merged, in the order of the input, into one record; a
    longer record given first comes last, and one-byte records given in the
    order b, a stay in that order. *)
Theorem accumulate_pop_order (results : list JobRunResult) :
  (exists order bs,
      StronglySorted item_lt order
      /\ Permutation order (heap_items results)
      /\ Forall (fun it =>
                   item_size it = len_in_bytes (item_result it)
                   /\ 0 <= item_index it
                   /\ nth_error results (Z.to_nat (item_index it))
                      = Some (item_result it))
           order
      /\ order = push_all results
      /\ concat bs = map item_result order
      /\ accumulate results = mapM merge_batch bs
      /\ (Forall valid results -> accumulate results = Ok (map merged bs)))
  /\ accumulate [R_out "a"; R_out "b"; R_out "c"]
     = Ok [mkJobRunResult (py "a" ++ nl ++ py "b" ++ nl ++ py "c") []]
  /\ accumulate [R_out "ccc"; R_out "b"; R_err "e"; R_out "a"]
     = Ok [mkJobRunResult (py "b" ++ nl ++ py "a" ++ nl ++ py "ccc") (py "e")].
Proof.
  split; [| split; reflexivity].
  pose proof (push_all_pop_order results) as Hpop.
  destruct (accumulate_batches results) as (bs & Hacc & Hok & Hc & _).
  exists (push_all results), bs.
  split; [eapply pop_order_strict, Hpop |].
  split; [apply Hpop |].
  split.
  { eapply Permutation_Forall;
      [apply Permutation_sym, Hpop | apply heap_items_keys]. }
  repeat split; assumption.
Qed.

Lemma accumulate_pop_order_witness :
  exists order bs,
    StronglySorted item_lt order
    /\ Permutation order (heap_items [R_out "bb"; R_out "a"; R_err "c"])
    /\ Forall (fun it =>
                 item_size it = len_in_bytes (item_result it)
                 /\ 0 <= item_index it
                 /\ nth_error [R_out "bb"; R_out "a"; R_err "c"]
                      (Z.to_nat (item_index it))
                    = Some (item_result it))
         order
    /\ order = push_all [R_out "bb"; R_out "a"; R_err "c"]
    /\ concat bs = map item_result order
    /\ accumulate [R_out "bb"; R_out "a"; R_err "c"] = mapM merge_batch bs
    /\ (Forall valid [R_out "bb"; R_out "a"; R_err "c"] ->
        accumulate [R_out "bb"; R_out "a"; R_err "c"] = Ok (map merged bs)).
Proof.
  exact (proj1 (accumulate_pop_order [R_out "bb"; R_out "a"; R_err "c"])).
Defined.
